(** * Recursive Language Model orchestrator (rlm_openrouter.py)

    A shallow embedding of [REPLEnvironment], [RecursiveLM._call_llm],
    [RecursiveLM._create_recursive_lm_function] and [RecursiveLM.completion],
    and the properties of the directive grammar, the sandbox and the call
    budget that the specification states about them.

    Conventions.
    - A Python [str] is a [string]; a character is a code point below 256.
    - A Python [int] is a [Z].
    - A Python [dict] is an insertion-ordered association list with unique
      keys ([dict]), as CPython keeps it.
    - What the interpreter itself provides ([exec], [str], [json.dumps], the
      HTTP transport) is an interface, [Host]; the repository's own code is
      written over it.  Console output ([print] under [verbose]) is left out.
    - An exception is an [exn]; a call that may raise returns an [outcome].
      [str] of an object that a snippet made and [str] of an exception may
      raise; [str] of the context that a caller hands over does not. *)

From Stdlib Require Import String Ascii List ZArith Lia Bool Arith.
From Stdlib Require Import DecimalString.
Import ListNotations.

Open Scope string_scope.
Open Scope Z_scope.

(* ================================================================== *)
(** * Text primitives *)

Module Text.

(** [s.startswith(p)], returning what follows [p]. *)
Fixpoint strip_prefix (p s : string) : option string :=
  match p with
  | EmptyString => Some s
  | String c p' =>
      match s with
      | EmptyString => None
      | String d s' => if Ascii.eqb c d then strip_prefix p' s' else None
      end
  end.

Definition startswith (s p : string) : bool :=
  match strip_prefix p s with Some _ => true | None => false end.

(** [p in s] on strings. *)
Fixpoint contains (p s : string) : bool :=
  if startswith s p then true
  else match s with
       | EmptyString => false
       | String _ s' => contains p s'
       end.

(** [str.isspace] on one character (code points below 256). *)
Definition is_space (c : ascii) : bool :=
  let n := nat_of_ascii c in
  ((9 <=? n) && (n <=? 13) || (28 <=? n) && (n <=? 32)
   || (n =? 133) || (n =? 160))%nat.

Fixpoint lstrip (s : string) : string :=
  match s with
  | EmptyString => EmptyString
  | String c s' => if is_space c then lstrip s' else s
  end.

Fixpoint rstrip (s : string) : string :=
  match s with
  | EmptyString => EmptyString
  | String c s' =>
      match rstrip s' with
      | EmptyString => if is_space c then EmptyString else String c EmptyString
      | r => String c r
      end
  end.

(** [s.strip()] *)
Definition strip (s : string) : string := rstrip (lstrip s).

(** [s[:n]] *)
Fixpoint take (n : nat) (s : string) : string :=
  match n, s with
  | S k, String c s' => String c (take k s')
  | _, _ => EmptyString
  end.

Definition newline : ascii := ascii_of_nat 10.
Definition nl : string := String newline EmptyString.

End Text.

(* ================================================================== *)
(** * The three regular expressions of [completion]

    All three have the shape [pre (.*?) suf]: a literal, one lazy group, a
    literal.  [match_here] is the backtracking matcher at one start position
    (the lazy group grows one character at a time and stops at the first place
    where [suf] follows); [search] tries the start positions from the left, as
    [re.search] does; [findall] collects the non-overlapping matches from the
    left, as [re.findall] does.  [dot] is the class of [.]: every character
    under [re.DOTALL], every character but the newline without it. *)

Module Regex.
Import Text.

Definition dot_all (_ : ascii) : bool := true.
Definition dot_line (c : ascii) : bool := negb (Ascii.eqb c newline).

Fixpoint lazy_group (dot : ascii -> bool) (suf s : string)
  : option (string * string) :=
  match strip_prefix suf s with
  | Some rest => Some (EmptyString, rest)
  | None =>
      match s with
      | EmptyString => None
      | String c s' =>
          if dot c then
            match lazy_group dot suf s' with
            | Some (g, rest) => Some (String c g, rest)
            | None => None
            end
          else None
      end
  end.

(** The group and the text after the match, when the pattern matches at the
    start of [s]. *)
Definition match_here (pre : string) (dot : ascii -> bool) (suf s : string)
  : option (string * string) :=
  match strip_prefix pre s with
  | Some s1 => lazy_group dot suf s1
  | None => None
  end.

(** [re.search(pattern, s)]: group 1 of the leftmost match. *)
Fixpoint search (pre : string) (dot : ascii -> bool) (suf s : string)
  : option string :=
  match match_here pre dot suf s with
  | Some (g, _) => Some g
  | None =>
      match s with
      | EmptyString => None
      | String _ s' => search pre dot suf s'
      end
  end.

(** [re.findall(pattern, s)]: [skip] counts the characters of the last
    match that are still to be passed over. *)
Fixpoint findall_from (pre : string) (dot : ascii -> bool) (suf : string)
         (skip : nat) (s : string) : list string :=
  match s with
  | EmptyString => []
  | String _ s' =>
      match skip with
      | S k => findall_from pre dot suf k s'
      | O =>
          match match_here pre dot suf s with
          | Some (g, rest) =>
              g :: findall_from pre dot suf
                     (String.length s - String.length rest - 1)%nat s'
          | None => findall_from pre dot suf 0%nat s'
          end
      end
  end.

Definition findall (pre : string) (dot : ascii -> bool) (suf s : string)
  : list string := findall_from pre dot suf 0%nat s.

End Regex.

(* ================================================================== *)
(** * Directive grammar (lines 237-251 of [completion]) *)

Module Directive.
Import Text Regex.

(** [re.search(r'FINAL\((.*?)\)', response, re.DOTALL)] *)
Definition final_match (response : string) : option string :=
  search "FINAL(" dot_all ")" response.

(** [re.search(r'FINAL_VAR\((.*?)\)', response)] *)
Definition final_var_match (response : string) : option string :=
  search "FINAL_VAR(" dot_line ")" response.

Definition fence_open : string := "```python" ++ nl.
Definition fence_close : string := nl ++ "```".

(** [re.findall(r'```python\n(.*?)\n```', response, re.DOTALL)] *)
Definition code_blocks (response : string) : list string :=
  findall fence_open dot_all fence_close response.

Inductive directive : Type :=
| FinalAnswer (text : string)
| FinalVarRef (name : string)
| CodeBlocks (snippets : list string)
| Continue.

(** The [if final_match / elif final_var_match / if code_blocks / else]
    cascade. *)
Definition parse (response : string) : directive :=
  match final_match response with
  | Some g => FinalAnswer (strip g)
  | None =>
      match final_var_match response with
      | Some g => FinalVarRef (strip g)
      | None =>
          match code_blocks response with
          | [] => Continue
          | blocks => CodeBlocks blocks
          end
      end
  end.

End Directive.

(* ================================================================== *)
(** * Python dictionaries *)

Module Dict.

Definition dict (V : Type) : Type := list (string * V).

Section Ops.
Context {V : Type}.

(** [d.get(k)] *)
Fixpoint dict_get (k : string) (d : dict V) : option V :=
  match d with
  | [] => None
  | (k', v) :: t => if String.eqb k k' then Some v else dict_get k t
  end.

(** [d[k] = v]: a key already present keeps its place. *)
Fixpoint dict_set (k : string) (v : V) (d : dict V) : dict V :=
  match d with
  | [] => [(k, v)]
  | (k', v') :: t =>
      if String.eqb k k' then (k, v) :: t else (k', v') :: dict_set k v t
  end.

(** [d.update(e)] *)
Definition dict_update (d e : dict V) : dict V :=
  fold_left (fun acc kv => dict_set (fst kv) (snd kv) acc) e d.

(** [{k: v for k, v in d.items() if keep(k)}] *)
Definition dict_filter (keep : string -> bool) (d : dict V) : dict V :=
  filter (fun kv => keep (fst kv)) d.

End Ops.

(** [{k: f(v) for k, v in d.items()}] *)
Definition dict_map {V W : Type} (f : V -> W) (d : dict V) : dict W :=
  map (fun kv => (fst kv, f (snd kv))) d.

End Dict.

Import Text Regex Directive Dict.

(* ================================================================== *)
(** * Exceptions and results *)

(** A raised exception: whether it is an instance of [Exception] (what
    [except Exception] catches; [SystemExit], [KeyboardInterrupt] and
    [GeneratorExit] are not), and what [str(e)] comes to: a text, or the
    exception that [str(e)] raises in its turn. *)
Inductive exn : Type :=
| mk_exn (ordinary : bool) (text : string)
| mk_exn_unprintable (ordinary : bool) (raised : exn).

(** [isinstance(e, Exception)] *)
Definition is_Exception (e : exn) : bool :=
  match e with
  | mk_exn ordinary _ | mk_exn_unprintable ordinary _ => ordinary
  end.

Inductive outcome (A : Type) : Type :=
| Return (a : A)
| Raise (e : exn).
Arguments Return {A} a.
Arguments Raise {A} e.

(** [str(e)] *)
Definition str_exn (e : exn) : outcome string :=
  match e with
  | mk_exn _ text => Return text
  | mk_exn_unprintable _ raised => Raise raised
  end.

(** The [result] dict of [REPLEnvironment.execute]. *)
Record exec_result : Type := mk_exec_result {
  success : bool;
  output : option string;
  error : option string;
  result_variables : dict string
}.

(** One entry of [execution_history]. *)
Record ExecutionRecord : Type := mk_record {
  record_code : string;
  record_result : exec_result
}.

(** One entry of the transcript. *)
Record message : Type := mk_message { role : string; content : string }.

(** What one HTTP round trip of [_call_llm] comes to. *)
Inductive reply : Type :=
| PostFailed (e : exn)   (* [requests.post], [raise_for_status] or
                            [response.json()] raised *)
| NoContent (e : exn)    (* the payload decoded, but
                            [result["choices"][0]["message"]["content"]]
                            raised *)
| Content (text : string).

(* ================================================================== *)
(** * The host: what CPython and the network provide *)

Class Host : Type := {
  (* a reference to a Python object *)
  value : Type;
  (* what the objects hold *)
  heap : Type;
  (* [exec(code, namespace)]: the namespace as the snippet leaves it, or the
     exception it raises; either way the heap may have changed *)
  py_exec : string -> dict value -> heap -> outcome (dict value) * heap;
  (* [str(v)]: the text, or the exception that the conversion raises (an
     object whose [__str__] fails, an [int] too long to print) *)
  py_str : value -> heap -> outcome string;
  (* [str(context)] for the payload a caller hands to [completion]: a text,
     a list of texts or a mapping of such, on which [str] does not raise *)
  py_str_context : value -> heap -> string;
  (* the objects [len], [str], ..., [re], [json] *)
  py_builtin : string -> value;
  (* [type(v).__name__] *)
  py_type_name : value -> string;
  (* the text of [v] when [isinstance(v, str)] *)
  py_as_str : value -> option string;
  (* the items of [v] when [isinstance(v, list)] *)
  py_as_list : value -> heap -> option (list value);
  (* [str] of a list object holding these items *)
  py_str_of_list : list value -> heap -> string;
  (* [json.dumps(exec_result, indent=2)] *)
  json_dumps : exec_result -> string;
  (* the provider's answer to the [n]-th request (counted from 0) for a
     model and a transcript *)
  http_post : nat -> string -> list message -> reply
}.

(** [str(n)] for an [int]. *)
Definition str_of_int (n : Z) : string := NilZero.string_of_int (Z.to_int n).

(* ================================================================== *)
(** * [RLMConfig] *)

Record RLMConfig : Type := mk_config {
  root_model : string;
  recursive_model : string;
  max_iterations : Z;
  max_recursive_depth : Z;
  verbose : bool
}.

(* ================================================================== *)
(** * [REPLEnvironment] *)

Section Sandbox.
Context {host : Host}.

Record REPLEnvironment : Type := mk_repl {
  context : value;
  variables : dict value;
  execution_history : list ExecutionRecord
}.

(** [REPLEnvironment.__init__] *)
Definition REPLEnvironment_init (ctx : value) : REPLEnvironment :=
  {| context := ctx;
     variables := [("context", ctx)];
     execution_history := [] |}.

(** The names bound to interpreter objects in every namespace. *)
Definition builtin_names : list string :=
  ["len"; "str"; "int"; "float"; "list"; "dict"; "range"; "enumerate";
   "zip"; "sum"; "min"; "max"; "sorted"; "re"; "json"].

(** The list of the comprehension at line 76. *)
Definition reserved_names : list string := "context" :: builtin_names.

(** The dict display of lines 50-68: ["context"] first, then
    [**self.variables], then the interpreter objects, later keys
    overriding earlier ones. *)
Definition make_namespace (self : REPLEnvironment) : dict value :=
  fold_left (fun ns name => dict_set name (py_builtin name) ns)
    builtin_names
    (dict_update [("context", context self)] (variables self)).

Definition mem_string (k : string) (l : list string) : bool :=
  existsb (String.eqb k) l.

(** [not k.startswith("__") and k not in [...]] *)
Definition exported (k : string) : bool :=
  negb (startswith k "__") && negb (mem_string k reserved_names).

Definition empty_result : exec_result :=
  {| success := false; output := None; error := None;
     result_variables := [] |}.

(** [self.execution_history.append({"code": code, "result": result})] *)
Definition log_execution (code : string) (r : exec_result)
           (self : REPLEnvironment) : REPLEnvironment :=
  {| context := context self;
     variables := variables self;
     execution_history :=
       execution_history self ++ [{| record_code := code; record_result := r |}]
  |}.

(** [{k: str(v)[:200] for k, v in self.variables.items()}]: the values are
    converted in the order of the store, and the first conversion that
    raises ends the comprehension. *)
Fixpoint preview (vars : dict value) (h : heap) : outcome (dict string) :=
  match vars with
  | [] => Return []
  | (k, v) :: rest =>
      match py_str v h with
      | Raise e => Raise e
      | Return text =>
          match preview rest h with
          | Raise e => Raise e
          | Return shown => Return ((k, take 200 text) :: shown)
          end
      end
  end.

(** The clause [except Exception as e: result["error"] = str(e)], entered
    with the [result] dict as the [try] body left it, followed by the
    append to the history.  An exception outside [Exception] is not caught,
    and one raised by [str(e)] leaves the handler. *)
Definition handle_exception (code : string) (e : exn) (result : exec_result)
           (self : REPLEnvironment) (h : heap)
  : outcome exec_result * REPLEnvironment * heap :=
  if is_Exception e then
    match str_exn e with
    | Return text =>
        let result' :=
          {| success := success result; output := output result;
             error := Some text;
             result_variables := result_variables result |} in
        (Return result', log_execution code result' self, h)
    | Raise e' => (Raise e', self, h)
    end
  else (Raise e, self, h).

(** [REPLEnvironment.execute].  The sandbox object and the heap are
    threaded; [Raise] is an exception that leaves [execute]. *)
Definition execute (code : string) (self : REPLEnvironment) (h : heap)
  : outcome exec_result * REPLEnvironment * heap :=
  let namespace := make_namespace self in
  match py_exec code namespace h with
  | (Return ns', h') =>
      let vars' := dict_update (variables self) (dict_filter exported ns') in
      let self' := {| context := context self;
                      variables := vars';
                      execution_history := execution_history self |} in
      let succeeded :=
        {| success := true; output := None; error := None;
           result_variables := [] |} in
      match preview vars' h' with
      | Return shown =>
          let previewed :=
            {| success := true; output := None; error := None;
               result_variables := shown |} in
          match dict_get "result" vars' with
          | Some v =>
              match py_str v h' with
              | Return text =>
                  let result :=
                    {| success := true; output := Some text; error := None;
                       result_variables := shown |} in
                  (Return result, log_execution code result self', h')
              | Raise e => handle_exception code e previewed self' h'
              end
          | None => (Return previewed, log_execution code previewed self', h')
          end
      | Raise e => handle_exception code e succeeded self' h'
      end
  | (Raise e, h') => handle_exception code e empty_result self h'
  end.

(** [REPLEnvironment.get_variable]: [None] is Python's [None]. *)
Definition get_variable (name : string) (self : REPLEnvironment)
  : option value := dict_get name (variables self).

(** [str(x)] where [x] is the result of [dict.get]. *)
Definition str_of_optional (x : option value) (h : heap) : outcome string :=
  match x with
  | Some v => py_str v h
  | None => Return "None"
  end.

(** [REPLEnvironment.peek] *)
Definition peek (n : nat) (self : REPLEnvironment) (h : heap) : string :=
  match py_as_str (context self) with
  | Some s => take n s
  | None =>
      match py_as_list (context self) h with
      | Some items =>
          py_str_of_list (firstn (Nat.min 5 (List.length items)) items) h
      | None => take n (py_str_context (context self) h)
      end
  end.

End Sandbox.

(* ================================================================== *)
(** * [RecursiveLM] *)

Section Orchestrator.
Context {host : Host}.

(** The instance: its configuration and [call_count].  [total_cost] is set
    to [0.0] by [__init__] and never touched again. *)
Record RecursiveLM : Type := mk_rlm {
  config : RLMConfig;
  call_count : Z
}.

(** One request sent by [_call_llm], with the depth it was attributed and
    what came back.  The list of them is a trace kept next to the program
    state; the program does not read it. *)
Record llm_call : Type := mk_call {
  call_model : string;
  call_depth : Z;
  call_messages : list message;
  call_reply : reply
}.

(** What lives outside the instance: the interpreter's heap and the trace
    of requests, oldest first. *)
Record world : Type := mk_world {
  objects : heap;
  wire : list llm_call
}.

(** [RecursiveLM.__init__]: [key] is [config.api_key or os.getenv(...)]. *)
Definition RecursiveLM_init (cfg : RLMConfig) (key : option string)
  : outcome RecursiveLM :=
  match key with
  | None | Some EmptyString =>
      Raise (mk_exn true "OpenRouter API key required. Set OPENROUTER_API_KEY env var or pass in config.")
  | Some _ => Return {| config := cfg; call_count := 0 |}
  end.

Definition count_call (self : RecursiveLM) : RecursiveLM :=
  {| config := config self; call_count := call_count self + 1 |}.

(** [RecursiveLM._call_llm] *)
Definition _call_llm (messages : list message) (model : string) (depth : Z)
           (self : RecursiveLM) (w : world)
  : outcome string * RecursiveLM * world :=
  let r := http_post (List.length (wire w)) model messages in
  let w' := {| objects := objects w;
               wire := wire w ++ [mk_call model depth messages r] |} in
  match r with
  | PostFailed e => (Raise e, self, w')
  | NoContent e => (Raise e, count_call self, w')
  | Content text => (Return text, count_call self, w')
  end.

Definition depth_sentinel : string := "Max recursion depth reached".

(** [context_subset or repl.context], as the f-string renders it. *)
Definition subset_or_context (context_subset : option string)
           (repl : REPLEnvironment) (h : heap) : string :=
  match context_subset with
  | None | Some EmptyString => py_str_context (context repl) h
  | Some s => s
  end.

(** The closure [recursive_lm] of [_create_recursive_lm_function], with what
    it captures ([repl], [depth]) as its first arguments. *)
Definition recursive_lm (repl : REPLEnvironment) (depth : Z)
           (query : string) (context_subset : option string)
           (self : RecursiveLM) (w : world)
  : outcome string * RecursiveLM * world :=
  if depth >=? max_recursive_depth (config self) then
    (Return depth_sentinel, self, w)
  else
    let messages :=
      [ {| role := "system";
           content := "You are a helpful assistant. Answer the query based on the provided context." |};
        {| role := "user";
           content := "Query: " ++ query ++ nl ++ nl ++ "Context: "
                      ++ subset_or_context context_subset repl (objects w) |} ] in
    _call_llm messages (recursive_model (config self)) (depth + 1) self w.


(** The f-string of lines 198-220. *)
Definition system_prompt (cfg : RLMConfig) (repl : REPLEnvironment)
           (h : heap) : string :=
  "You are a Recursive Language Model (RLM) with access to a Python REPL environment.

The user's context is stored in a variable called 'context'. You can interact with it programmatically.

Available tools:
1. Execute Python code to analyze, filter, or transform the context
2. Call recursive_lm(query, context_subset) to spawn sub-queries on context chunks
3. Use regex, string operations, list comprehension to process context

Context info:
- Type: " ++ py_type_name (context repl) ++ "
- Size: " ++ str_of_int (Z.of_nat (String.length (py_str_context (context repl) h)))
  ++ " characters
- Preview: " ++ peek 200 repl h ++ "

IMPORTANT: You MUST end your response with your final answer in this exact format:
FINAL(your answer here)

Example workflow:
1. Write Python code in ```python code blocks to analyze context
2. Review execution results
3. When ready, provide FINAL(answer)

You have " ++ str_of_int (max_iterations cfg)
  ++ " iterations maximum. Be efficient and provide FINAL() as soon as you have the answer.".

(** The local variables of [completion]. *)
Record locals : Type := mk_locals {
  repl : REPLEnvironment;
  messages : list message;
  iterations : Z;
  final_answer : option string
}.

Definition assistant_message (response : string) : message :=
  {| role := "assistant"; content := response |}.

Definition execution_message (r : exec_result) : message :=
  {| role := "user"; content := "Execution result: " ++ json_dumps r |}.

Definition nudge_message : message :=
  {| role := "user";
     content := "Continue with your analysis or provide FINAL(answer)." |}.

(** The [for code in code_blocks] loop of lines 252-265. *)
Fixpoint run_code_blocks (response : string) (blocks : list string)
         (r : REPLEnvironment) (msgs : list message) (h : heap)
  : outcome unit * REPLEnvironment * list message * heap :=
  match blocks with
  | [] => (Return tt, r, msgs, h)
  | code :: rest =>
      let step :=
        if contains "recursive_lm" code then execute code r h
        else execute code r h in
      match step with
      | (Return exec_result, r', h') =>
          run_code_blocks response rest r'
            (msgs ++ [assistant_message response; execution_message exec_result])
            h'
      | (Raise e, r', h') => (Raise e, r', msgs, h')
      end
  end.

(** How one pass through the body of the [while] leaves it. *)
Inductive flow : Type := Break | Next.

(** The body of the [while] loop, lines 231-272. *)
Definition loop_body (l : locals) (self : RecursiveLM) (w : world)
  : outcome flow * locals * RecursiveLM * world :=
  let iterations' := iterations l + 1 in
  match _call_llm (messages l) (root_model (config self)) 0 self w with
  | (Raise e, self', w') =>
      (Raise e, mk_locals (repl l) (messages l) iterations' (final_answer l),
       self', w')
  | (Return response, self', w') =>
      match final_match response with
      | Some g =>
          (Return Break,
           mk_locals (repl l) (messages l) iterations' (Some (strip g)),
           self', w')
      | None =>
          match final_var_match response with
          | Some g =>
              let var_name := strip g in
              match str_of_optional (get_variable var_name (repl l))
                                    (objects w') with
              | Return text =>
                  (Return Break,
                   mk_locals (repl l) (messages l) iterations' (Some text),
                   self', w')
              | Raise e =>
                  (Raise e,
                   mk_locals (repl l) (messages l) iterations' (final_answer l),
                   self', w')
              end
          | None =>
              match code_blocks response with
              | [] =>
                  (Return Next,
                   mk_locals (repl l)
                     (messages l ++ [assistant_message response; nudge_message])
                     iterations' (final_answer l),
                   self', w')
              | blocks =>
                  match run_code_blocks response blocks (repl l) (messages l)
                                        (objects w') with
                  | (out, r', msgs', h') =>
                      (match out with
                       | Return _ => Return Next
                       | Raise e => Raise e
                       end,
                       mk_locals r' msgs' iterations' (final_answer l),
                       self', {| objects := h'; wire := wire w' |})
                  end
              end
          end
      end
  end.

(** [while iterations < self.config.max_iterations and final_answer is None];
    [None] when [fuel] passes through the body were not enough to leave the
    loop. *)
Fixpoint while_loop (fuel : nat) (l : locals) (self : RecursiveLM) (w : world)
  : option (outcome unit * locals * RecursiveLM * world) :=
  if (iterations l <? max_iterations (config self))
     && (match final_answer l with None => true | Some _ => false end)
  then
    match fuel with
    | O => None
    | S fuel' =>
        match loop_body l self w with
        | (Return Next, l', self', w') => while_loop fuel' l' self' w'
        | (Return Break, l', self', w') => Some (Return tt, l', self', w')
        | (Raise e, l', self', w') => Some (Raise e, l', self', w')
        end
    end
  else Some (Return tt, l, self, w).

Definition no_answer_sentinel : string :=
  "No final answer provided within iteration limit".

(** [final_answer or "No final answer provided within iteration limit"] *)
Definition answer_or_sentinel (final_answer : option string) : string :=
  match final_answer with
  | None | Some EmptyString => no_answer_sentinel
  | Some a => a
  end.

(** The dict returned by [completion]. *)
Record completion_result : Type := mk_result {
  answer : string;
  result_iterations : Z;
  repl_history : list ExecutionRecord;
  total_calls : Z;
  result_messages : list message
}.

(** The [return] statement of lines 274-280. *)
Definition make_result (l : locals) (self : RecursiveLM) : completion_result :=
  {| answer := answer_or_sentinel (final_answer l);
     result_iterations := iterations l;
     repl_history := execution_history (repl l);
     total_calls := call_count self;
     result_messages := messages l |}.

(** The state of [completion] when it reaches the [while]. *)
Definition initial_locals (cfg : RLMConfig) (query : string) (ctx : value)
           (h : heap) : locals :=
  let r := REPLEnvironment_init ctx in
  {| repl := r;
     messages := [ {| role := "system"; content := system_prompt cfg r h |};
                   {| role := "user"; content := "Query: " ++ query |} ];
     iterations := 0;
     final_answer := None |}.

(** [RecursiveLM.completion], with [fuel] passes through the loop allowed. *)
Definition completion_fuel (fuel : nat) (query : string) (ctx : value)
           (self : RecursiveLM) (w : world)
  : option (outcome completion_result * RecursiveLM * world) :=
  match while_loop fuel (initial_locals (config self) query ctx (objects w))
                   self w with
  | None => None
  | Some (Return _, l, self', w') => Some (Return (make_result l self'), self', w')
  | Some (Raise e, _, self', w') => Some (Raise e, self', w')
  end.

(** [RecursiveLM.completion]: [max_iterations] passes are always enough
    ([completion_total] below). *)
Definition completion (query : string) (ctx : value)
           (self : RecursiveLM) (w : world)
  : option (outcome completion_result * RecursiveLM * world) :=
  completion_fuel (Z.to_nat (max_iterations (config self))) query ctx self w.

End Orchestrator.

(* ================================================================== *)
(** * A small host to run the definitions on

    [Mini.host script] interprets a fragment of Python, one statement per
    line, and answers the [n]-th request with the [n]-th reply of [script].
    The statements of the fragment:
    - [NAME = DIGITS] binds an [int];
    - [NAME = CALLEE(...)] looks [CALLEE] up and raises
      [NameError: name 'CALLEE' is not defined] when it is unbound;
    - [raise Exception('TEXT')];
    - [raise SystemExit].
    On these it agrees with CPython, for literals within the interpreter's
    digit limit; every other line is refused as a syntax error.  It has no
    mutable objects, so its heap is [unit], and no object whose [str]
    raises (see [Big] for those). *)

Module Mini.

Inductive mini_value : Type :=
| MNone
| MInt (n : Z)
| MStr (s : string)
| MBuiltin (name : string).

Definition mini_str (v : mini_value) (_ : unit) : string :=
  match v with
  | MNone => "None"
  | MInt n => str_of_int n
  | MStr s => s
  | MBuiltin name => "<built-in " ++ name ++ ">"
  end.

Definition digit_of (c : ascii) : option Z :=
  let n := nat_of_ascii c in
  if ((48 <=? n) && (n <=? 57))%nat then Some (Z.of_nat (n - 48)) else None.

Fixpoint digits (acc : Z) (s : string) : option Z :=
  match s with
  | EmptyString => Some acc
  | String c s' =>
      match digit_of c with
      | Some d => digits (10 * acc + d) s'
      | None => None
      end
  end.

Definition int_literal (s : string) : option Z :=
  match s with
  | EmptyString => None
  | _ => digits 0 s
  end.

Definition ordinary (text : string) : exn := mk_exn true text.

Definition SystemExit : exn := mk_exn false "".

(** One statement: the namespace after it, or what it raises. *)
Definition statement (line : string) (ns : dict mini_value)
  : outcome (dict mini_value) :=
  if String.eqb line "raise SystemExit" then Raise SystemExit
  else
    match match_here "raise Exception('" dot_all "')" line with
    | Some (text, EmptyString) => Raise (ordinary text)
    | _ =>
        match lazy_group dot_all " = " line with
        | Some (name, rhs) =>
            match int_literal rhs with
            | Some n => Return (dict_set name (MInt n) ns)
            | None =>
                match lazy_group dot_all "(" rhs with
                | Some (callee, _) =>
                    match dict_get callee ns with
                    | None =>
                        Raise (ordinary ("name '" ++ callee ++ "' is not defined"))
                    | Some _ => Raise (ordinary "invalid syntax")
                    end
                | None => Raise (ordinary "invalid syntax")
                end
            end
        | None => Raise (ordinary "invalid syntax")
        end
    end.

(** The lines of a snippet. *)
Fixpoint lines (cur s : string) : list string :=
  match s with
  | EmptyString => [cur]
  | String c s' =>
      if Ascii.eqb c newline then cur :: lines EmptyString s'
      else lines (cur ++ String c EmptyString) s'
  end.

Fixpoint statements (ls : list string) (ns : dict mini_value)
  : outcome (dict mini_value) :=
  match ls with
  | [] => Return ns
  | l :: rest =>
      match statement l ns with
      | Return ns' => statements rest ns'
      | Raise e => Raise e
      end
  end.

(** [exec] binds [__builtins__] in the namespace before it runs the code. *)
Definition mini_exec (code : string) (ns : dict mini_value) (h : unit)
  : outcome (dict mini_value) * unit :=
  (statements (lines EmptyString code)
     (dict_set "__builtins__" (MBuiltin "builtins") ns), h).

Definition type_name (v : mini_value) : string :=
  match v with
  | MNone => "NoneType"
  | MInt _ => "int"
  | MStr _ => "str"
  | MBuiltin _ => "builtin_function_or_method"
  end.

Definition dq : string := String (ascii_of_nat 34) EmptyString.

Definition json_string (s : string) : string := dq ++ s ++ dq.

Definition json_optional (o : option string) : string :=
  match o with
  | None => "null"
  | Some s => json_string s
  end.

Fixpoint json_members (d : dict string) : string :=
  match d with
  | [] => EmptyString
  | [(k, v)] => nl ++ "    " ++ json_string k ++ ": " ++ json_string v ++ nl ++ "  "
  | (k, v) :: t => nl ++ "    " ++ json_string k ++ ": " ++ json_string v ++ "," ++ json_members t
  end.

(** [json.dumps(result, indent=2)] for texts that need no escape. *)
Definition mini_json (r : exec_result) : string :=
  "{" ++ nl
  ++ "  " ++ json_string "success" ++ ": " ++ (if success r then "true" else "false") ++ "," ++ nl
  ++ "  " ++ json_string "output" ++ ": " ++ json_optional (output r) ++ "," ++ nl
  ++ "  " ++ json_string "error" ++ ": " ++ json_optional (error r) ++ "," ++ nl
  ++ "  " ++ json_string "variables" ++ ": {" ++ json_members (result_variables r) ++ "}" ++ nl
  ++ "}".

Definition host (script : list reply) : Host :=
  {| value := mini_value;
     heap := unit;
     py_exec := mini_exec;
     py_str := fun v h => Return (mini_str v h);
     py_str_context := mini_str;
     py_builtin := MBuiltin;
     py_type_name := type_name;
     py_as_str := fun v => match v with MStr s => Some s | _ => None end;
     py_as_list := fun _ _ => None;
     py_str_of_list := fun _ _ => "[]";
     json_dumps := mini_json;
     http_post := fun n _ _ =>
       nth n script (PostFailed (ordinary "Connection refused")) |}.

Definition cfg : RLMConfig :=
  {| root_model := "openai/gpt-4o";
     recursive_model := "openai/gpt-4o-mini";
     max_iterations := 10;
     max_recursive_depth := 1;
     verbose := false |}.

(** The world before any request, and a context that is a text. *)
Definition start (script : list reply) : @world (host script) :=
  @mk_world (host script) tt [].

Definition text (script : list reply) (s : string) : @value (host script) :=
  MStr s.

Definition run (script : list reply) (cfg : RLMConfig) (calls : Z)
           (query ctx : string) (w : @world (host script)) :=
  @completion (host script) query (text script ctx) (mk_rlm cfg calls) w.

(** What a finished invocation reports. *)
Definition answer_of {H : Host}
           (res : option (outcome completion_result * RecursiveLM * @world H))
  : option string :=
  match res with
  | Some (Return r, _, _) => Some (answer r)
  | _ => None
  end.

Definition total_calls_of {H : Host}
           (res : option (outcome completion_result * RecursiveLM * @world H))
  : option Z :=
  match res with
  | Some (Return r, _, _) => Some (total_calls r)
  | _ => None
  end.

(** A fence around a snippet. *)
Definition fenced (code : string) : string :=
  "```python" ++ nl ++ code ++ nl ++ "```".

End Mini.

(* ================================================================== *)
(** * Readings of the specification that the code is compared with *)

Module Reading.

(** What follows the first occurrence of [pre] in [s]. *)
Fixpoint after_first (pre s : string) : option string :=
  match strip_prefix pre s with
  | Some rest => Some rest
  | None =>
      match s with
      | EmptyString => None
      | String _ s' => after_first pre s'
      end
  end.

(** The text up to the close parenthesis that matches an open one already
    read, [depth] further open ones being pending. *)
Fixpoint to_matching_close (depth : nat) (s : string) : option string :=
  match s with
  | EmptyString => None
  | String c s' =>
      if Ascii.eqb c ")" then
        match depth with
        | O => Some EmptyString
        | S d => option_map (String c) (to_matching_close d s')
        end
      else if Ascii.eqb c "(" then
        option_map (String c) (to_matching_close (S depth) s')
      else option_map (String c) (to_matching_close depth s')
  end.

(** "The contents between the first [FINAL(] and its matching close
    parenthesis". *)
Definition contents_to_matching_close (response : string) : option string :=
  match after_first "FINAL(" response with
  | Some rest => to_matching_close 0 rest
  | None => None
  end.

End Reading.

(* ================================================================== *)
(** * Vocabulary of the statements *)

Section Vocabulary.
Context {host : Host}.

(** A request of the orchestrator itself: sent to the root model and
    attributed depth 0. *)
Definition primary_call (cfg : RLMConfig) (c : llm_call) : Prop :=
  call_model c = root_model cfg /\ call_depth c = 0.


(** The reply carries a terminal directive. *)
Definition terminal_reply (r : reply) : bool :=
  match r with
  | Content text =>
      match final_match text, final_var_match text with
      | None, None => false
      | _, _ => true
      end
  | _ => false
  end.

(** By how much [_call_llm] advances [call_count] on a reply. *)
Definition counted (r : reply) : Z :=
  match r with
  | PostFailed _ => 0
  | NoContent _ | Content _ => 1
  end.

(** What the transcript gains when [k] snippets are executed: the assistant
    response and the execution result, once per snippet. *)
Definition execution_messages (response : string) (results : list exec_result)
  : list message :=
  flat_map (fun r => [assistant_message response; execution_message r]) results.


(** What the orchestrator does with a directive (section 4.4 of the
    specification), after it has counted the iteration. *)
Definition apply_directive (d : directive) (response : string)
           (l : locals) (h : heap) : outcome flow * locals * heap :=
  match d with
  | FinalAnswer text =>
      (Return Break,
       mk_locals (repl l) (messages l) (iterations l) (Some text), h)
  | FinalVarRef name =>
      match str_of_optional (get_variable name (repl l)) h with
      | Return text =>
          (Return Break,
           mk_locals (repl l) (messages l) (iterations l) (Some text), h)
      | Raise e => (Raise e, l, h)
      end
  | CodeBlocks blocks =>
      match run_code_blocks response blocks (repl l) (messages l) h with
      | (out, r', msgs', h') =>
          (match out with
           | Return _ => Return Next
           | Raise e => Raise e
           end,
           mk_locals r' msgs' (iterations l) (final_answer l), h')
      end
  | Continue =>
      (Return Next,
       mk_locals (repl l)
         (messages l ++ [assistant_message response; nudge_message])
         (iterations l) (final_answer l), h)
  end.

(** The condition of the [while]. *)
Definition loop_guard (l : locals) (self : RecursiveLM) : bool :=
  (iterations l <? max_iterations (config self))
  && (match final_answer l with None => true | Some _ => false end).

Definition count_iteration (l : locals) : locals :=
  mk_locals (repl l) (messages l) (iterations l + 1) (final_answer l).


End Vocabulary.

(* ================================================================== *)
(** * The factory, a sequence of queries, and shapes of the transcript *)


Section Callers.
Context {host : Host}.

(** [a or b] on optional texts: [a] when it is a non-empty text. *)
Definition or_text (a b : option string) : option string :=
  match a with
  | None | Some EmptyString => b
  | Some _ => a
  end.

(** [create_rlm] (lines 283-296): the configuration takes the defaults of
    [RLMConfig] for [max_iterations] and [max_recursive_depth]; [env_key] is
    what [os.getenv("OPENROUTER_API_KEY")] returns. *)
Definition create_rlm (root_model recursive_model : string)
           (api_key : option string) (verbose : bool)
           (env_key : option string) : outcome RecursiveLM :=
  RecursiveLM_init (mk_config root_model recursive_model 10 1 verbose)
                   (or_text api_key env_key).

(** Queries put one after the other to the same instance, as demo.py and
    quickstart.py do; an exception ends the script.  The results of the
    queries answered, and the exception if there was one. *)
Fixpoint session (queries : list (string * value))
         (self : RecursiveLM) (w : world)
  : list completion_result * option exn * RecursiveLM * world :=
  match queries with
  | [] => ([], None, self, w)
  | (query, ctx) :: rest =>
      match completion query ctx self w with
      | Some (Return r, self', w') =>
          match session rest self' w' with
          | (rs, e, self'', w'') => (r :: rs, e, self'', w'')
          end
      | Some (Raise e, self', w') => ([], Some e, self', w')
      | None => ([], None, self, w)
      end
  end.

(** The totals reported by successive queries that use [steps] calls each,
    on an instance whose counter stands at [start]. *)
Fixpoint running_sums (start : Z) (steps : list Z) : list Z :=
  match steps with
  | [] => []
  | n :: rest => (start + n) :: running_sums (start + n) rest
  end.

(** Pairs of an assistant message followed by a user message. *)
Fixpoint alternating (msgs : list message) : bool :=
  match msgs with
  | [] => true
  | a :: u :: rest =>
      String.eqb (role a) "assistant" && String.eqb (role u) "user"
      && alternating rest
  | _ => false
  end.

(** The user messages that report an execution. *)
Definition is_execution_message (m : message) : bool :=
  String.eqb (role m) "user" && startswith (content m) "Execution result: ".

(** The report that [completion] writes for a record of the history. *)
Definition report_of (rec : ExecutionRecord) : message :=
  execution_message (record_result rec).

End Callers.

(** A host whose only statement is [del NAME]: the name is removed from the
    namespace, or NameError is raised when it is unbound.  The rest is
    [Mini.host]. *)
Module Del.

Definition del_exec (code : string) (ns : dict Mini.mini_value) (h : unit)
  : outcome (dict Mini.mini_value) * unit :=
  match strip_prefix "del " code with
  | Some name =>
      match dict_get name ns with
      | Some _ =>
          (Return (dict_filter (fun k => negb (String.eqb k name)) ns), h)
      | None =>
          (Raise (Mini.ordinary ("name '" ++ name ++ "' is not defined")), h)
      end
  | None => (Raise (Mini.ordinary "invalid syntax"), h)
  end.

Definition host : Host :=
  {| value := Mini.mini_value;
     heap := unit;
     py_exec := del_exec;
     py_str := fun v h => Return (Mini.mini_str v h);
     py_str_context := Mini.mini_str;
     py_builtin := Mini.MBuiltin;
     py_type_name := Mini.type_name;
     py_as_str := fun v => match v with Mini.MStr s => Some s | _ => None end;
     py_as_list := fun _ _ => None;
     py_str_of_list := fun _ _ => "[]";
     json_dumps := Mini.mini_json;
     http_post := fun _ _ _ => PostFailed (Mini.ordinary "Connection refused") |}.

End Del.

(** A host for CPython 3.11 and later, where [str] of an [int] of more than
    4300 digits raises ValueError.  Its statements are [NAME = 10**K], which
    binds the power, and [raise ValueError(10**K)], whose exception has the
    power as its only argument, so that [str(e)] is [str] of the power.  A
    power of ten is held by its exponent. *)
Module Big.

Inductive big_value : Type :=
| Small (v : Mini.mini_value)
| PowerOfTen (k : Z).

Definition digits_limit_text : string :=
  "Exceeds the limit (4300 digits) for integer string "
  ++ "conversion; use sys.set_int_max_str_digits() to "
  ++ "increase the limit".

Definition digits_limit : exn := Mini.ordinary digits_limit_text.

Fixpoint zeros (n : nat) : string :=
  match n with
  | O => EmptyString
  | S k => String "0" (zeros k)
  end.

(** [10**k] has [k + 1] digits. *)
Definition big_str (v : big_value) (h : unit) : outcome string :=
  match v with
  | Small v => Return (Mini.mini_str v h)
  | PowerOfTen k =>
      if k + 1 <=? 4300 then Return (String "1" (zeros (Z.to_nat k)))
      else Raise digits_limit
  end.

Definition power_of_ten (s : string) : option big_value :=
  match strip_prefix "10**" s with
  | Some k =>
      match Mini.int_literal k with
      | Some n => Some (PowerOfTen n)
      | None => None
      end
  | None => None
  end.

Definition big_exec (code : string) (ns : dict big_value) (h : unit)
  : outcome (dict big_value) * unit :=
  let ns := dict_set "__builtins__" (Small (Mini.MBuiltin "builtins")) ns in
  match match_here "raise ValueError(" dot_all ")" code with
  | Some (arg, EmptyString) =>
      match power_of_ten arg with
      | Some v =>
          match big_str v h with
          | Return text => (Raise (mk_exn true text), h)
          | Raise e => (Raise (mk_exn_unprintable true e), h)
          end
      | None => (Raise (Mini.ordinary "invalid syntax"), h)
      end
  | _ =>
      match lazy_group dot_all " = " code with
      | Some (name, rhs) =>
          match power_of_ten rhs with
          | Some v => (Return (dict_set name v ns), h)
          | None => (Raise (Mini.ordinary "invalid syntax"), h)
          end
      | None => (Raise (Mini.ordinary "invalid syntax"), h)
      end
  end.

Definition text_of (v : big_value) (h : unit) : string :=
  match big_str v h with
  | Return text => text
  | Raise _ => EmptyString
  end.

Definition host (script : list reply) : Host :=
  {| value := big_value;
     heap := unit;
     py_exec := big_exec;
     py_str := big_str;
     py_str_context := text_of;
     py_builtin := fun name => Small (Mini.MBuiltin name);
     py_type_name := fun v =>
       match v with
       | Small v => Mini.type_name v
       | PowerOfTen _ => "int"
       end;
     py_as_str := fun v =>
       match v with Small (Mini.MStr s) => Some s | _ => None end;
     py_as_list := fun _ _ => None;
     py_str_of_list := fun _ _ => "[]";
     json_dumps := Mini.mini_json;
     http_post := fun n _ _ =>
       nth n script (PostFailed (Mini.ordinary "Connection refused")) |}.

Definition text (script : list reply) (s : string) : @value (host script) :=
  Small (Mini.MStr s).

Definition run (script : list reply) (query ctx : string) :=
  @completion (host script) query (text script ctx) (mk_rlm Mini.cfg 0)
              (@mk_world (host script) tt []).

End Big.

(* ================================================================== *)
(** * Lemmas on text and on the matcher *)

Lemma string_app_assoc (a b c : string) : (a ++ b) ++ c = a ++ b ++ c.
Proof.
  induction a as [|x a IH]; simpl; [reflexivity | now rewrite IH].
Qed.

Lemma strip_prefix_app (p rest : string) :
  strip_prefix p (p ++ rest) = Some rest.
Proof.
  induction p as [|c p IH]; simpl; [reflexivity|].
  now rewrite Ascii.eqb_refl.
Qed.

(** A prefix found in [u ++ v] that is no longer than [u] is found in [u]. *)
Lemma strip_prefix_within (p u v : string) :
  (String.length p <= String.length u)%nat ->
  strip_prefix p u = None -> strip_prefix p (u ++ v) = None.
Proof.
  revert u; induction p as [|c p IH]; intros u Hlen Hnone; simpl in *.
  - discriminate.
  - destruct u as [|d u]; simpl in *; [lia|].
    destruct (Ascii.eqb c d); [|reflexivity].
    apply IH; [lia | assumption].
Qed.

Lemma string_length_app (a b : string) :
  String.length (a ++ b) = (String.length a + String.length b)%nat.
Proof.
  induction a as [|x a IH]; simpl; [reflexivity | now rewrite IH].
Qed.

Lemma contains_cons_false (p : string) (c : ascii) (s : string) :
  contains p (String c s) = false ->
  strip_prefix p (String c s) = None /\ contains p s = false.
Proof.
  simpl. unfold startswith.
  destruct (strip_prefix p (String c s)); [discriminate | auto].
Qed.

(** The lazy group of [(.*?)\)] under DOTALL stops at the first close
    parenthesis. *)
Lemma lazy_group_first_close (body post : string) :
  contains ")" body = false ->
  lazy_group dot_all ")" (body ++ ")" ++ post) = Some (body, post).
Proof.
  induction body as [|c body IH]; intros Hno.
  - reflexivity.
  - apply contains_cons_false in Hno as [Hhead Htail].
    change ((String c body ++ ")" ++ post))
      with (String c (body ++ ")" ++ post)).
    cbn [lazy_group].
    assert (Hs : strip_prefix ")" (String c (body ++ ")" ++ post)) = None).
    { cbn [strip_prefix] in Hhead |- *.
      destruct (Ascii.eqb ")" c); [discriminate | reflexivity]. }
    rewrite Hs. cbn [dot_all]. now rewrite (IH Htail).
Qed.

Lemma search_unfold (pre : string) (dot : ascii -> bool) (suf s : string) :
  search pre dot suf s =
  match match_here pre dot suf s with
  | Some (g, _) => Some g
  | None =>
      match s with
      | EmptyString => None
      | String _ s' => search pre dot suf s'
      end
  end.
Proof. destruct s; reflexivity. Qed.

(** [re.search] finds its match at the first place where the literal
    [pre] starts, when the rest of the pattern matches there. *)
Lemma search_at_first (pre tail : string) (last : ascii)
      (dot : ascii -> bool) (suf a rest g post : string) :
  pre = tail ++ String last EmptyString ->
  contains pre (a ++ tail) = false ->
  lazy_group dot suf rest = Some (g, post) ->
  search pre dot suf (a ++ pre ++ rest) = Some g.
Proof.
  intros Hpre Hno Hgroup.
  induction a as [|c a IH].
  - change (EmptyString ++ pre ++ rest) with (pre ++ rest).
    rewrite search_unfold. unfold match_here.
    rewrite strip_prefix_app, Hgroup. reflexivity.
  - change (String c a ++ tail) with (String c (a ++ tail)) in Hno.
    apply contains_cons_false in Hno as [Hhead Htail].
    change (String c a ++ pre ++ rest) with (String c (a ++ pre ++ rest)).
    cbn [search]. unfold match_here.
    assert (Hs : strip_prefix pre (String c (a ++ pre ++ rest)) = None).
    { destruct (Nat.le_gt_cases (String.length pre)
                                (String.length (String c (a ++ tail)))) as [Hle|Hgt].
      - replace (String c (a ++ pre ++ rest))
          with (String c (a ++ tail) ++ String last rest).
        + apply strip_prefix_within; assumption.
        + simpl. f_equal. rewrite string_app_assoc. f_equal.
          rewrite Hpre, string_app_assoc. reflexivity.
      - exfalso. rewrite Hpre in Hgt. simpl in Hgt.
        rewrite !string_length_app in Hgt. simpl in Hgt. lia. }
    rewrite Hs. apply IH; assumption.
Qed.

(* ================================================================== *)
(** * C3: what [FINAL(...)] yields *)

(** C3, as stated, fails: on [FINAL(f(x) + 1)] the contents up to the
    matching close parenthesis are [f(x) + 1], and the code parses [f(x]. *)
Lemma C3_matching_close_counterexample :
  ~ (forall response body,
        Reading.contents_to_matching_close response = Some body ->
        parse response = FinalAnswer (strip body)).
Proof.
  intros claim.
  specialize (claim "FINAL(f(x) + 1)" "f(x) + 1" eq_refl).
  vm_compute in claim. discriminate.
Qed.

(** C3, amended: for every response in which the first [FINAL(] is followed
    by a close parenthesis, the parsed final answer is the text between that
    [FINAL(] and the first close parenthesis after it, trimmed of surrounding
    whitespace; the text may span several lines. *)
Theorem C3_final_answer_to_first_close (before body post : string) :
  contains "FINAL(" (before ++ "FINAL") = false ->
  contains ")" body = false ->
  final_match (before ++ "FINAL(" ++ body ++ ")" ++ post) = Some body
  /\ parse (before ++ "FINAL(" ++ body ++ ")" ++ post)
     = FinalAnswer (strip body).
Proof.
  intros Hfirst Hclose.
  assert (Hm : final_match (before ++ "FINAL(" ++ body ++ ")" ++ post)
               = Some body).
  { unfold final_match.
    apply (search_at_first "FINAL(" "FINAL" "("%char dot_all ")" before
                           (body ++ ")" ++ post) body post).
    - reflexivity.
    - assumption.
    - apply lazy_group_first_close; assumption. }
  split; [assumption|].
  unfold parse. rewrite Hm. reflexivity.
Qed.

Lemma C3_final_answer_to_first_close_witness :
  parse ("Done." ++ nl ++ "FINAL(  line one" ++ nl ++ "line two  ) (end)")
  = FinalAnswer ("line one" ++ nl ++ "line two").
Proof.
  exact (proj2 (C3_final_answer_to_first_close
                  ("Done." ++ nl) ("  line one" ++ nl ++ "line two  ") " (end)"
                  eq_refl eq_refl)).
Defined.

(* ================================================================== *)
(** * Lemmas on dictionaries and on the namespace *)

Section DictFacts.
Context {V : Type}.

Lemma dict_get_set (k k' : string) (v : V) (d : dict V) :
  dict_get k (dict_set k' v d)
  = if String.eqb k k' then Some v else dict_get k d.
Proof.
  induction d as [|[k0 v0] d IH]; simpl.
  - reflexivity.
  - destruct (String.eqb k' k0) eqn:E1; simpl.
    + apply String.eqb_eq in E1; subst k0.
      destruct (String.eqb k k'); reflexivity.
    + rewrite IH. destruct (String.eqb k k') eqn:E2; [|reflexivity].
      apply String.eqb_eq in E2; subst k'. now rewrite E1.
Qed.

Lemma dict_get_update_none (k : string) (d e : dict V) :
  dict_get k d = None -> dict_get k e = None ->
  dict_get k (dict_update d e) = None.
Proof.
  unfold dict_update. revert d.
  induction e as [|[k1 v1] e IH]; intros d Hd He; simpl in *.
  - assumption.
  - destruct (String.eqb k k1) eqn:E; [discriminate|].
    apply IH; [|assumption].
    now rewrite dict_get_set, E.
Qed.

Lemma dict_get_fold_set (f : string -> V) (k : string) (names : list string)
      (d : dict V) :
  existsb (String.eqb k) names = false ->
  dict_get k (fold_left (fun ns name => dict_set name (f name) ns) names d)
  = dict_get k d.
Proof.
  revert d. induction names as [|n names IH]; intros d Hk; simpl in *.
  - reflexivity.
  - apply orb_false_iff in Hk as [Hn Hrest].
    rewrite (IH _ Hrest), dict_get_set, Hn. reflexivity.
Qed.

End DictFacts.

Ltac execute_paths :=
  unfold execute, handle_exception; cbv zeta;
  repeat (match goal with
          | |- context [match ?x with _ => _ end] => destruct x eqn:?
          end; cbv beta iota).

Ltac execute_paths_in H :=
  unfold execute, handle_exception in H; cbv zeta in H;
  repeat (match type of H with
          | context [match ?x with _ => _ end] => destruct x eqn:?
          end; cbv beta iota in H).

Section SandboxFacts.
Context {host : Host}.

(** A name that is neither reserved nor in the variable store is unbound in
    the namespace a snippet runs in. *)
Lemma namespace_unbound (k : string) (self : REPLEnvironment) :
  mem_string k reserved_names = false ->
  dict_get k (variables self) = None ->
  dict_get k (make_namespace self) = None.
Proof.
  intros Hres Hvars. unfold make_namespace.
  unfold mem_string, reserved_names in Hres. cbn [existsb] in Hres.
  apply orb_false_iff in Hres as [Hctx Hbuiltin].
  rewrite dict_get_fold_set by assumption.
  apply dict_get_update_none; [|assumption].
  simpl. now rewrite Hctx.
Qed.

(** [execute] leaves [context] alone. *)
Lemma execute_context (code : string) (self : REPLEnvironment) (h : heap) :
  context (snd (fst (execute code self h))) = context self.
Proof.
  execute_paths; reflexivity.
Qed.

(** What [execute] does to the history and to the store, on every path. *)
Lemma execute_paths_effect (code : string) (self : REPLEnvironment) (h : heap)
      out self' h' :
  execute code self h = (out, self', h') ->
  execution_history self'
  = (execution_history self
     ++ match out with
        | Return r => [mk_record code r]
        | Raise _ => []
        end)%list
  /\ match py_exec code (make_namespace self) h with
     | (Return ns', h1) =>
         h' = h1
         /\ variables self'
            = dict_update (variables self) (dict_filter exported ns')
         /\ forall r, out = Return r -> success r = true
     | (Raise e, h1) =>
         h' = h1
         /\ variables self' = variables self
         /\ forall r, out = Return r ->
              r = {| success := false; output := None;
                     error := match str_exn e with
                              | Return text => Some text
                              | Raise _ => None
                              end;
                     result_variables := [] |}
              /\ is_Exception e = true
     end.
Proof.
  intros Hrun. execute_paths_in Hrun; injection Hrun as <- <- <-;
    cbv beta iota; cbn [execution_history variables log_execution];
    (split; [try reflexivity; now rewrite app_nil_r|]);
    (split; [reflexivity|]); (split; [reflexivity|]);
    intros r Hr; try discriminate; injection Hr as <-;
    try reflexivity; split; (reflexivity || assumption).
Qed.


End SandboxFacts.

(* ================================================================== *)
(** * C8 and C10: what [execute] records and what a failure leaves *)




(** C10: for every snippet whose record reports failure, the variable store
    after [execute] is the one before it: no name is added, removed or
    rebound. *)
Theorem C10_failed_snippet_keeps_store
        {host : Host} (code : string) (self self' : REPLEnvironment)
        (h h' : heap) (r : exec_result) :
  execute code self h = (Return r, self', h') ->
  success r = false ->
  variables self' = variables self /\ context self' = context self.
Proof.
  intros Hrun Hfail.
  pose proof (execute_context code self h) as Hctx.
  rewrite Hrun in Hctx. cbn [fst snd] in Hctx.
  split; [|exact Hctx].
  destruct (execute_paths_effect _ _ _ _ _ _ Hrun) as [_ Hstore].
  destruct (py_exec code (make_namespace self) h) as [[ns|e] h1].
  - destruct Hstore as (_ & _ & Hok).
    rewrite (Hok r eq_refl) in Hfail. discriminate.
  - tauto.
Qed.

Lemma C10_failed_snippet_keeps_store_witness :
  let host := Mini.host [] in
  let self := {| context := Mini.MStr "ctx";
                 variables := [("context", Mini.MStr "ctx"); ("x", Mini.MInt 1)];
                 execution_history := [] |} in
  let code := "x = 2" ++ nl ++ "y = 3" ++ nl ++ "raise Exception('boom')" in
  variables (snd (fst (execute code self tt))) = variables self
  /\ context (snd (fst (execute code self tt))) = context self.
Proof.
  intros host self code.
  exact (@C10_failed_snippet_keeps_store host code self
           (snd (fst (execute code self tt))) tt tt
           {| success := false; output := None; error := Some "boom";
              result_variables := [] |}
           eq_refl eq_refl).
Defined.

(* ================================================================== *)
(** * Lemmas on the orchestrator *)

Ltac split4 := split; [| split; [| split]].

Section OrchestratorFacts.
Context {host : Host}.



(** The body of the loop factors through the directive: what it does with a
    response is what [apply_directive] does with [parse response]. *)
Lemma loop_body_by_directive (l : locals) (self : RecursiveLM) (w : world) :
  loop_body l self w =
  match _call_llm (messages l) (root_model (config self)) 0 self w with
  | (Raise e, self', w') => (Raise e, count_iteration l, self', w')
  | (Return response, self', w') =>
      match apply_directive (parse response) response (count_iteration l)
                            (objects w') with
      | (out, l', h') => (out, l', self', {| objects := h'; wire := wire w' |})
      end
  end.
Proof.
  unfold loop_body, parse.
  destruct (_call_llm (messages l) (root_model (config self)) 0 self w)
    as [[[response|e] self'] w']; [|reflexivity].
  destruct (final_match response) as [g|].
  - destruct w'; reflexivity.
  - destruct (final_var_match response) as [g|].
    + destruct w' as [h0 wire0].
      cbn [apply_directive count_iteration repl messages iterations
           final_answer objects wire].
      destruct (str_of_optional (get_variable (strip g) (repl l)) h0);
        reflexivity.
    + destruct (code_blocks response) as [|b blocks].
      * destruct w'; reflexivity.
      * cbn [apply_directive count_iteration repl messages iterations final_answer].
        destruct (run_code_blocks response (b :: blocks) (repl l) (messages l)
                                  (objects w')) as [[[out r'] msgs'] h'].
        reflexivity.
Qed.

Lemma loop_body_effect (l : locals) (self : RecursiveLM) (w : world)
      out l' self' w' :
  loop_body l self w = (out, l', self', w') ->
  let r := http_post (List.length (wire w)) (root_model (config self))
                     (messages l) in
  iterations l' = iterations l + 1
  /\ config self' = config self
  /\ wire w' = (wire w ++ [mk_call (root_model (config self)) 0 (messages l) r])%list
  /\ call_count self' = call_count self + counted r
  /\ (forall f, out = Return f -> exists text, r = Content text)
  /\ (terminal_reply r = false -> final_answer l' = final_answer l).
Proof.
  intros Hbody r. unfold loop_body, _call_llm in Hbody. fold r in Hbody.
  destruct r as [e|e|text] eqn:Er.
  - inversion Hbody; subst; simpl. repeat split; try lia.
    intros f Hf; discriminate.
  - inversion Hbody; subst; simpl. repeat split; try lia.
    intros f Hf; discriminate.
  - cbn [terminal_reply].
    destruct (final_match text) as [g|].
    + inversion Hbody; subst; simpl. repeat split; eauto; discriminate.
    + destruct (final_var_match text) as [g|].
      * destruct (str_of_optional _ _);
          inversion Hbody; subst; simpl; repeat split; eauto; discriminate.
      * destruct (code_blocks text) as [|b blocks].
        -- inversion Hbody; subst; simpl. repeat split; eauto.
        -- destruct (run_code_blocks text (b :: blocks) (repl l) (messages l) _)
             as [[[o r'] msgs'] h'].
           inversion Hbody; subst; simpl. repeat split; eauto.
Qed.

Lemma while_loop_unfold (fuel : nat) (l : locals) (self : RecursiveLM)
      (w : world) :
  while_loop fuel l self w =
  if loop_guard l self then
    match fuel with
    | O => None
    | S fuel' =>
        match loop_body l self w with
        | (Return Next, l', self', w') => while_loop fuel' l' self' w'
        | (Return Break, l', self', w') => Some (Return tt, l', self', w')
        | (Raise e, l', self', w') => Some (Raise e, l', self', w')
        end
    end
  else Some (Return tt, l, self, w).
Proof. destruct fuel; reflexivity. Qed.

(** What a run of the loop does to the counters and to the trace. *)
Lemma while_loop_effect (fuel : nat) :
  forall (l : locals) (self : RecursiveLM) (w : world) out l' self' w',
    while_loop fuel l self w = Some (out, l', self', w') ->
    config self' = config self
    /\ iterations l <= iterations l'
    /\ iterations l' <= Z.max (iterations l) (max_iterations (config self))
    /\ exists new,
        wire w' = (wire w ++ new)%list
        /\ Forall (primary_call (config self)) new
        /\ Z.of_nat (List.length new) = iterations l' - iterations l
        /\ (out = Return tt ->
            call_count self' = call_count self + Z.of_nat (List.length new))
        /\ (final_answer l = None ->
            Forall (fun c => terminal_reply (call_reply c) = false) new ->
            final_answer l' = None).
Proof.
  induction fuel as [|fuel IH]; intros l self w out l' self' w' Hrun;
    rewrite while_loop_unfold in Hrun;
    destruct (loop_guard l self) eqn:G.
  - discriminate.
  - inversion Hrun; subst. split4; try lia; [reflexivity|].
    exists []. rewrite app_nil_r. simpl. split4; auto; try lia. split; auto; lia.
  - apply andb_true_iff in G as [Glt Gnone]. apply Z.ltb_lt in Glt.
    destruct (loop_body l self w) as [[[o l1] self1] w1] eqn:B.
    apply loop_body_effect in B.
    destruct B as (Hit & Hcfg & Hwire & Hcount & Hret & Hkeep).
    remember (http_post (List.length (wire w)) (root_model (config self))
                        (messages l)) as r eqn:Er.
    set (c := mk_call (root_model (config self)) 0 (messages l) r) in *.
    assert (Hprim : primary_call (config self) c) by (split; reflexivity).
    assert (Hone : forall f, o = Return f -> counted r = 1).
    { intros f Hf. destruct (Hret f Hf) as [text Ht]. now rewrite Ht. }
    destruct o as [[|]|e].
    + inversion Hrun; subst l1 self1 w1 out.
      split4; try lia; [assumption|].
      exists [c]. simpl. split4; auto; try lia. split.
      * intros _. rewrite Hcount, (Hone Break eq_refl). reflexivity.
      * intros Hnone Hall. inversion Hall; subst.
        rewrite Hkeep; assumption.
    + apply IH in Hrun.
      destruct Hrun as (Hcfg' & Hlo & Hhi & new & Hw & Hall & Hlen & Hcc & Hfin).
      rewrite Hcfg in *. split4; try lia; [congruence|].
      exists (c :: new). simpl. split4.
      * rewrite Hw, Hwire, <- app_assoc. reflexivity.
      * constructor; assumption.
      * lia.
      * split.
        -- intros Hout. rewrite (Hcc Hout), Hcount, (Hone Next eq_refl). lia.
        -- intros Hnone Hnt. inversion Hnt; subst.
           apply Hfin; [|assumption]. rewrite Hkeep; assumption.
    + inversion Hrun; subst l1 self1 w1 out.
      split4; try lia; [assumption|].
      exists [c]. simpl. split4; auto; try lia. split.
      * intros Hout; discriminate.
      * intros Hnone Hall. inversion Hall; subst.
        rewrite Hkeep; assumption.
  - inversion Hrun; subst. split4; try lia; [reflexivity|].
    exists []. rewrite app_nil_r. simpl. split4; auto; try lia. split; auto; lia.
Qed.

(** The loop leaves within [max_iterations - iterations] passes. *)
Lemma while_loop_total (fuel : nat) :
  forall (l : locals) (self : RecursiveLM) (w : world),
    max_iterations (config self) - iterations l <= Z.of_nat fuel ->
    exists res, while_loop fuel l self w = Some res.
Proof.
  induction fuel as [|fuel IH]; intros l self w Hfuel;
    rewrite while_loop_unfold; destruct (loop_guard l self) eqn:G;
    eauto.
  - apply andb_true_iff in G as [Glt _]. apply Z.ltb_lt in Glt. lia.
  - destruct (loop_body l self w) as [[[o l1] self1] w1] eqn:B.
    apply loop_body_effect in B. destruct B as (Hit & Hcfg & _).
    destruct o as [[|]|e]; eauto.
    apply IH. rewrite Hcfg. lia.
Qed.

Lemma completion_total (query : string) (ctx : value)
      (self : RecursiveLM) (w : world) :
  exists res, completion query ctx self w = Some res.
Proof.
  unfold completion, completion_fuel.
  destruct (while_loop_total (Z.to_nat (max_iterations (config self)))
              (initial_locals (config self) query ctx (objects w)) self w)
    as [[[[out l] self'] w'] Hrun].
  - simpl. lia.
  - rewrite Hrun. destruct out; eauto.
Qed.

End OrchestratorFacts.

Section CompletionFacts.
Context {host : Host}.

(** [completion] is its loop, run from the initial state, followed by the
    [return] statement. *)
Lemma completion_run (query : string) (ctx : value)
      (self : RecursiveLM) (w : world) :
  exists out l' self' w',
    while_loop (Z.to_nat (max_iterations (config self)))
               (initial_locals (config self) query ctx (objects w)) self w
    = Some (out, l', self', w')
    /\ completion query ctx self w
       = Some (match out with
               | Return _ => Return (make_result l' self')
               | Raise e => Raise e
               end, self', w').
Proof.
  destruct (while_loop_total (Z.to_nat (max_iterations (config self)))
              (initial_locals (config self) query ctx (objects w)) self w)
    as [[[[out l] self'] w'] Hrun].
  - simpl. lia.
  - exists out, l, self', w'. split; [assumption|].
    unfold completion, completion_fuel. rewrite Hrun.
    destruct out; reflexivity.
Qed.

Lemma answer_or_sentinel_nonempty (a : option string) :
  answer_or_sentinel a <> EmptyString.
Proof.
  destruct a as [[|c s]|]; simpl; discriminate.
Qed.

End CompletionFacts.

(* ================================================================== *)
(** * C7: the iteration budget *)

(** C7: for every [max_iterations = N], one [completion] invocation returns
    or raises after at most [N] requests, all of them primary-model calls;
    and when it returns without any reply having carried a terminal
    directive, its [answer] is the no-answer sentinel; the [answer] is never
    the empty string. *)
Theorem C7_iteration_budget
        {host : Host} (query : string) (ctx : value)
        (self : RecursiveLM) (w : world) :
  exists out self' w' new,
    completion query ctx self w = Some (out, self', w')
    /\ wire w' = (wire w ++ new)%list
    /\ Forall (primary_call (config self)) new
    /\ (List.length new <= Z.to_nat (max_iterations (config self)))%nat
    /\ forall r, out = Return r ->
         answer r <> EmptyString
         /\ (Forall (fun c => terminal_reply (call_reply c) = false) new ->
             answer r = no_answer_sentinel).
Proof.
  destruct (completion_run query ctx self w)
    as (out & l' & self' & w' & Hloop & Hcompletion).
  apply while_loop_effect in Hloop.
  destruct Hloop as (_ & Hlo & Hhi & new & Hwire & Hprim & Hlen & _ & Hfin).
  simpl in Hlo, Hhi, Hlen, Hfin.
  eexists _, self', w', new. split; [exact Hcompletion|].
  split4; try assumption; [lia|].
  intros r Hr. destruct out as [u|e]; [|discriminate].
  inversion Hr; subst r. simpl. split.
  - apply answer_or_sentinel_nonempty.
  - intros Hnt. now rewrite (Hfin eq_refl Hnt).
Qed.

Lemma C7_iteration_budget_witness :
  exists r self' w',
    Mini.run [Content "Let me think."; Content "Still thinking.";
              Content "FINAL(too late)"]
             (mk_config "openai/gpt-4o" "openai/gpt-4o-mini" 2 1 false) 0
             "q" "ctx" (Mini.start _)
    = Some (Return r, self', w')
    /\ (List.length (wire w') <= 2)%nat
    /\ answer r = no_answer_sentinel.
Proof.
  destruct (@C7_iteration_budget
              (Mini.host [Content "Let me think."; Content "Still thinking.";
                          Content "FINAL(too late)"])
              "q" (Mini.text _ "ctx")
              (mk_rlm (mk_config "openai/gpt-4o" "openai/gpt-4o-mini" 2 1 false) 0)
              (Mini.start _))
    as (out & self' & w' & new & Hrun & Hwire & _ & Hlen & Hanswer).
  pose proof (f_equal Mini.answer_of Hrun) as Ha. vm_compute in Ha.
  destruct out as [r|e]; [|discriminate Ha].
  exists r, self', w'. split; [exact Hrun|]. split.
  - rewrite Hwire. exact Hlen.
  - injection Ha as Ha. symmetry. exact Ha.
Defined.

(* ================================================================== *)
(** * C6: what [total_calls] counts *)

(** C6, as stated, fails: the counter belongs to the instance.  Two
    queries put to one instance, each answered by a single primary-model
    call: the second result reports two calls. *)
Lemma C6_second_invocation_counterexample :
  RecursiveLM_init Mini.cfg (Some "sk-key") = Return (mk_rlm Mini.cfg 0)
  /\ match @completion (Mini.host [Content "FINAL(1)"; Content "FINAL(2)"])
             "first" (Mini.text _ "ctx") (mk_rlm Mini.cfg 0) (Mini.start _)
     with
     | Some (Return r1, self1, w1) =>
         match @completion (Mini.host [Content "FINAL(1)"; Content "FINAL(2)"])
                 "second" (Mini.text _ "ctx") self1 w1
         with
         | Some (Return r2, _, w2) =>
             total_calls r1 = 1
             /\ (List.length (wire w2) - List.length (wire w1) = 1)%nat
             /\ total_calls r2 = 2
             /\ total_calls r2
                <> Z.of_nat (List.length (wire w2) - List.length (wire w1))
         | _ => False
         end
     | _ => False
     end.
Proof.
  split; [reflexivity|].
  vm_compute. split; [reflexivity|]. split; [reflexivity|].
  split; [reflexivity|discriminate].
Qed.

(** C6, amended: for every [completion] invocation that returns,
    [total_calls] is the instance's call counter as it stood when the
    invocation began plus the number of requests sent during the invocation,
    all of which are primary-model calls (no recursive dispatch runs inside
    [completion]); the counter is created by the constructor, at zero, and
    carries over from one [completion] call to the next on the same instance,
    so on a new instance [total_calls] is the number of primary-model
    calls. *)
Theorem C6_total_calls_accumulate
        {host : Host} (query : string) (ctx : value)
        (self self' : RecursiveLM) (w w' : world) (r : completion_result) :
  completion query ctx self w = Some (Return r, self', w') ->
  exists new,
    wire w' = (wire w ++ new)%list
    /\ Forall (primary_call (config self)) new
    /\ total_calls r = call_count self + Z.of_nat (List.length new)
    /\ call_count self' = total_calls r
    /\ (forall key, RecursiveLM_init (config self) key = Return self ->
                    total_calls r = Z.of_nat (List.length new)).
Proof.
  intros Hrun.
  destruct (completion_run query ctx self w)
    as (out & l' & self1 & w1 & Hloop & Hcompletion).
  rewrite Hrun in Hcompletion.
  destruct out as [[]|e]; [|discriminate].
  inversion Hcompletion; subst r self1 w1. clear Hcompletion.
  apply while_loop_effect in Hloop.
  destruct Hloop as (_ & _ & _ & new & Hwire & Hprim & _ & Hcount & _).
  exists new. simpl. split4; try assumption; [auto|].
  split; [reflexivity|].
  intros key Hinit. rewrite (Hcount eq_refl).
  unfold RecursiveLM_init in Hinit.
  destruct key as [[|c k]|]; try discriminate.
  inversion Hinit as [Hself]. rewrite <- Hself. simpl. lia.
Qed.

Lemma C6_total_calls_accumulate_witness :
  exists r self' w' new,
    Mini.run [Content "FINAL(1)"; Content "Hm."; Content "FINAL(2)"]
             Mini.cfg 1 "second" "ctx"
             (@mk_world (Mini.host _) tt
                [mk_call "openai/gpt-4o" 0 [] (Content "FINAL(1)")])
    = Some (Return r, self', w')
    /\ wire w' = (mk_call "openai/gpt-4o" 0 [] (Content "FINAL(1)") :: new)%list
    /\ total_calls r = 1 + Z.of_nat (List.length new)
    /\ total_calls r = 3.
Proof.
  destruct (@completion_total
              (Mini.host [Content "FINAL(1)"; Content "Hm."; Content "FINAL(2)"])
              "second" (Mini.text _ "ctx") (mk_rlm Mini.cfg 1)
              (@mk_world (Mini.host _) tt
                 [mk_call "openai/gpt-4o" 0 [] (Content "FINAL(1)")]))
    as [[[out self'] w'] Hrun].
  pose proof (f_equal Mini.total_calls_of Hrun) as Hc. vm_compute in Hc.
  destruct out as [r|e]; [|discriminate Hc].
  destruct (C6_total_calls_accumulate _ _ _ _ _ _ _ Hrun)
    as (new & Hwire & _ & Htotal & _).
  exists r, self', w', new.
  split; [exact Hrun|]. split; [exact Hwire|]. split; [exact Htotal|].
  injection Hc as Hc. symmetry. exact Hc.
Defined.

(* ================================================================== *)
(** * C4 and C9: the terminal directives *)

Section TerminalFacts.
Context {host : Host}.

(** The primary-model call of one iteration, when the provider answers
    with a text. *)
Lemma primary_call_returns (l : locals) (self : RecursiveLM) (w : world)
      (response : string) :
  http_post (List.length (wire w)) (root_model (config self)) (messages l)
  = Content response ->
  _call_llm (messages l) (root_model (config self)) 0 self w
  = (Return response, count_call self,
     {| objects := objects w;
        wire := wire w ++ [mk_call (root_model (config self)) 0 (messages l)
                                   (Content response)] |}).
Proof.
  intros Hpost. unfold _call_llm. rewrite Hpost. reflexivity.
Qed.

End TerminalFacts.

(** C4, as stated, fails: on [FINAL()] the loop ends with an empty final
    answer, and what the run reports is the no-answer sentinel. *)
Lemma C4_blank_final_counterexample :
  ~ (forall (host : Host) (fuel : nat) (l : locals) (self : RecursiveLM)
            (w : world) (response g : string),
        loop_guard l self = true ->
        http_post (List.length (wire w)) (root_model (config self)) (messages l)
        = Content response ->
        final_match response = Some g ->
        exists l' self' w',
          while_loop (S fuel) l self w = Some (Return tt, l', self', w')
          /\ answer (make_result l' self') = strip g).
Proof.
  intros claim.
  destruct (claim (Mini.host [Content "FINAL()"]) 0%nat
                  (mk_locals (REPLEnvironment_init (Mini.text _ "ctx")) [] 0 None)
                  (mk_rlm Mini.cfg 0) (Mini.start _) "FINAL()" ""
                  eq_refl eq_refl eq_refl)
    as (l' & self' & w' & Hloop & Hanswer).
  apply (f_equal (fun x => match x with
                           | Some (_, l, _, _) => final_answer l
                           | None => None
                           end)) in Hloop.
  vm_compute in Hloop.
  destruct l' as [repl' messages' iterations' final_answer'].
  unfold make_result in Hanswer.
  cbv beta iota delta [answer final_answer] in Hanswer, Hloop.
  rewrite <- Hloop in Hanswer. vm_compute in Hanswer. discriminate.
Qed.

(** C4, amended: what one iteration does with a response is a function of
    the directive parsed from the response text, with precedence
    FinalAnswer, then FinalVarRef, then CodeBlocks, then Continue, first
    match wins.  For every response in which the [FINAL(...)] pattern
    matches, whatever else the response holds, the loop ends in that
    iteration with the trimmed contents as final answer and nothing is
    executed (the sandbox, the transcript and the heap are as before); the
    run reports that final answer whenever it is not empty, and the
    no-answer sentinel when it is.  A
    [FINAL_VAR(...)] without [FINAL(...)] ends the loop in that iteration
    as well, with no code fence of the response executed. *)
Theorem C4_final_answer_takes_precedence
        {host : Host} (fuel : nat) (l : locals) (self : RecursiveLM)
        (w : world) (response : string) :
  loop_guard l self = true ->
  http_post (List.length (wire w)) (root_model (config self)) (messages l)
  = Content response ->
  let w' := {| objects := objects w;
               wire := wire w ++ [mk_call (root_model (config self)) 0
                                          (messages l) (Content response)] |} in
  loop_body l self w
  = (match apply_directive (parse response) response (count_iteration l)
                           (objects w) with
     | (out, l1, h1) =>
         (out, l1, count_call self, {| objects := h1; wire := wire w' |})
     end)
  /\ (forall g,
         final_match response = Some g ->
         let l' := mk_locals (repl l) (messages l) (iterations l + 1)
                             (Some (strip g)) in
         parse response = FinalAnswer (strip g)
         /\ while_loop (S fuel) l self w
            = Some (Return tt, l', count_call self, w')
         /\ (strip g <> EmptyString ->
             answer (make_result l' (count_call self)) = strip g)
         /\ (strip g = EmptyString ->
             answer (make_result l' (count_call self)) = no_answer_sentinel))
  /\ (forall g,
         final_match response = None ->
         final_var_match response = Some g ->
         parse response = FinalVarRef (strip g)
         /\ exists out l1,
             while_loop (S fuel) l self w = Some (out, l1, count_call self, w')
             /\ repl l1 = repl l
             /\ messages l1 = messages l)
  /\ (final_match response = None ->
      final_var_match response = None ->
      parse response = match code_blocks response with
                       | [] => Continue
                       | blocks => CodeBlocks blocks
                       end).
Proof.
  intros Hguard Hpost w'.
  assert (Hbody : loop_body l self w
                  = (match apply_directive (parse response) response
                                           (count_iteration l) (objects w) with
                     | (out, l1, h1) =>
                         (out, l1, count_call self,
                          {| objects := h1; wire := wire w' |})
                     end)).
  { rewrite loop_body_by_directive, (primary_call_returns _ _ _ _ Hpost).
    reflexivity. }
  split4.
  - exact Hbody.
  - intros g Hfinal l'.
    assert (Hparse : parse response = FinalAnswer (strip g))
      by (unfold parse; now rewrite Hfinal).
    split; [exact Hparse|]. split.
    + rewrite while_loop_unfold, Hguard, Hbody, Hparse. reflexivity.
    + split; intros Hfull; cbn [make_result answer final_answer l'].
      * destruct (strip g); [now elim Hfull | reflexivity].
      * rewrite Hfull. reflexivity.
  - intros g Hfinal Hvar.
    assert (Hparse : parse response = FinalVarRef (strip g))
      by (unfold parse; now rewrite Hfinal, Hvar).
    split; [exact Hparse|].
    rewrite while_loop_unfold, Hguard, Hbody, Hparse.
    cbn [apply_directive].
    destruct (str_of_optional _ _); eexists _, _;
      (split; [reflexivity|]); split; reflexivity.
  - intros Hfinal Hvar. unfold parse. now rewrite Hfinal, Hvar.
Qed.

Lemma C4_final_answer_takes_precedence_witness :
  exists r self' w',
    Mini.run [Content (Mini.fenced "x = 1" ++ " so FINAL_VAR(x) or FINAL( 42 )")]
             Mini.cfg 0 "q" "ctx" (Mini.start _)
    = Some (Return r, self', w')
    /\ answer r = "42" /\ repl_history r = [] /\ result_iterations r = 1.
Proof.
  destruct (@C4_final_answer_takes_precedence
              (Mini.host [Content (Mini.fenced "x = 1" ++ " so FINAL_VAR(x) or FINAL( 42 )")])
              9
              (initial_locals Mini.cfg "q" (Mini.text _ "ctx") tt)
              (mk_rlm Mini.cfg 0) (Mini.start _)
              (Mini.fenced "x = 1" ++ " so FINAL_VAR(x) or FINAL( 42 )")
              eq_refl eq_refl) as (_ & Hfinal & _).
  destruct (Hfinal " 42 " eq_refl) as (_ & Hloop & Hanswer & _).
  unfold Mini.run, completion, completion_fuel.
  change (Z.to_nat (max_iterations (config (mk_rlm Mini.cfg 0)))) with 10%nat.
  change (config (mk_rlm Mini.cfg 0)) with Mini.cfg.
  change (objects (Mini.start _)) with tt.
  rewrite Hloop.
  eexists _, _, _. split; [reflexivity|].
  split; [apply Hanswer; discriminate|]. split; reflexivity.
Defined.

(** C9: for every response parsed as [FINAL_VAR(name)] where [name] is not
    in the variable store, the loop ends normally in that iteration and the
    final answer is the text [None], the string form of Python's [None],
    which is what [completion] then returns as [answer]. *)
Theorem C9_missing_variable_answers_None
        {host : Host} (fuel : nat) (l : locals) (self : RecursiveLM)
        (w : world) (response g : string) :
  loop_guard l self = true ->
  http_post (List.length (wire w)) (root_model (config self)) (messages l)
  = Content response ->
  final_match response = None ->
  final_var_match response = Some g ->
  get_variable (strip g) (repl l) = None ->
  let l' := mk_locals (repl l) (messages l) (iterations l + 1) (Some "None") in
  let w' := {| objects := objects w;
               wire := wire w ++ [mk_call (root_model (config self)) 0
                                          (messages l) (Content response)] |} in
  parse response = FinalVarRef (strip g)
  /\ while_loop (S fuel) l self w = Some (Return tt, l', count_call self, w')
  /\ answer (make_result l' (count_call self)) = "None".
Proof.
  intros Hguard Hpost Hfinal Hvar Hmissing l' w'.
  assert (Hparse : parse response = FinalVarRef (strip g))
    by (unfold parse; now rewrite Hfinal, Hvar).
  split; [exact Hparse|]. split; [|reflexivity].
  rewrite while_loop_unfold, Hguard, loop_body_by_directive,
    (primary_call_returns _ _ _ _ Hpost), Hparse.
  cbn [apply_directive count_iteration repl messages iterations final_answer].
  rewrite Hmissing. reflexivity.
Qed.

Lemma C9_missing_variable_answers_None_witness :
  exists r self' w',
    Mini.run [Content "The answer is stored. FINAL_VAR( total )"]
             Mini.cfg 0 "q" "ctx" (Mini.start _)
    = Some (Return r, self', w')
    /\ answer r = "None" /\ result_iterations r = 1.
Proof.
  pose proof
    (@C9_missing_variable_answers_None
       (Mini.host [Content "The answer is stored. FINAL_VAR( total )"])
       9
       (initial_locals Mini.cfg "q" (Mini.text _ "ctx") tt)
       (mk_rlm Mini.cfg 0) (Mini.start _)
       "The answer is stored. FINAL_VAR( total )" " total "
       eq_refl eq_refl eq_refl eq_refl eq_refl) as (_ & Hloop & _).
  unfold Mini.run, completion, completion_fuel.
  change (Z.to_nat (max_iterations (config (mk_rlm Mini.cfg 0)))) with 10%nat.
  change (config (mk_rlm Mini.cfg 0)) with Mini.cfg.
  change (objects (Mini.start _)) with tt.
  rewrite Hloop.
  eexists _, _, _. split; [reflexivity|]. split; reflexivity.
Defined.

(* ================================================================== *)
(** * C5: what executing the snippets adds to the transcript *)





(* ================================================================== *)
(** * C2: the depth cap of the dispatcher *)

Section DispatcherFacts.
Context {host : Host}.



End DispatcherFacts.



(* ================================================================== *)
(** * C1: the dispatcher and the sandbox *)

(** C1 does not hold of the code: [completion] never calls
    [_create_recursive_lm_function], and the namespace of [execute] binds
    [context], the variables and fifteen interpreter objects only.  The name
    [recursive_lm] is unbound in the namespace of the first snippet; every
    request of a [completion] invocation is a primary-model call; and a
    snippet that calls [recursive_lm] fails with a NameError, which is what
    its execution record reports. *)
Theorem C1_recursive_lm_unbound_in_sandbox :
  (forall (host : Host) (ctx : value),
      dict_get "recursive_lm" (make_namespace (REPLEnvironment_init ctx)) = None)
  /\ (forall (host : Host) (query : string) (ctx : value)
             (self : RecursiveLM) (w : world),
         exists out self' w' new,
           completion query ctx self w = Some (out, self', w')
           /\ wire w' = (wire w ++ new)%list
           /\ Forall (primary_call (config self)) new)
  /\ match Mini.run [Content (Mini.fenced "answer = recursive_lm('How many?')");
                     Content "FINAL_VAR(answer)"]
                    Mini.cfg 0 "How many?" "ctx" (Mini.start _)
     with
     | Some (Return r, _, w') =>
         map (fun rec => (success (record_result rec), error (record_result rec)))
             (repl_history r)
         = [(false, Some "name 'recursive_lm' is not defined")]
         /\ answer r = "None"
         /\ map call_depth (wire w') = [0; 0]
     | _ => False
     end.
Proof.
  split; [|split].
  - intros host ctx. apply namespace_unbound; reflexivity.
  - intros host query ctx self w.
    destruct (completion_run query ctx self w)
      as (out & l' & self' & w' & Hloop & Hcompletion).
    apply while_loop_effect in Hloop.
    destruct Hloop as (_ & _ & _ & new & Hwire & Hprim & _).
    eexists _, self', w', new. split; [exact Hcompletion|].
    split; assumption.
  - vm_compute. repeat split.
Qed.

(* ================================================================== *)
(** * More on dictionaries *)

Section DictMore.
Context {V : Type}.


(** An update leaves alone the keys that the second dictionary lacks. *)
Lemma dict_get_update_other (k : string) (d e : dict V) :
  dict_get k e = None -> dict_get k (dict_update d e) = dict_get k d.
Proof.
  unfold dict_update. revert d.
  induction e as [|[k1 v1] e IH]; intros d He; simpl in *; [reflexivity|].
  destruct (String.eqb k k1) eqn:E; [discriminate|].
  rewrite (IH _ He), dict_get_set, E. reflexivity.
Qed.


(** An update never unbinds a key. *)
Lemma dict_get_update_bound (k : string) (d e : dict V) :
  dict_get k d <> None -> dict_get k (dict_update d e) <> None.
Proof.
  unfold dict_update. revert d.
  induction e as [|[k1 v1] e IH]; intros d Hd; simpl; [assumption|].
  apply IH. rewrite dict_get_set.
  destruct (String.eqb k k1); [discriminate | assumption].
Qed.

Lemma dict_get_filter (keep : string -> bool) (k : string) (d : dict V) :
  dict_get k (dict_filter keep d)
  = if keep k then dict_get k d else None.
Proof.
  unfold dict_filter.
  induction d as [|[k0 v0] d IH]; simpl; [now destruct (keep k)|].
  destruct (String.eqb k k0) eqn:E.
  - apply String.eqb_eq in E; subst k0.
    destruct (keep k) eqn:K; simpl.
    + now rewrite String.eqb_refl.
    + rewrite IH. reflexivity.
  - destruct (keep k0); simpl; [rewrite E|]; exact IH.
Qed.

Lemma dict_set_keys (k x : string) (v : V) (d : dict V) :
  In x (map fst (dict_set k v d)) -> x = k \/ In x (map fst d).
Proof.
  induction d as [|[k0 v0] d IH]; simpl.
  - intros [H|[]]; auto.
  - destruct (String.eqb k k0) eqn:E; simpl.
    + apply String.eqb_eq in E; subst k0. intros [H|H]; auto.
    + intros [H|H]; auto. destruct (IH H); auto.
Qed.

Lemma dict_set_nodup (k : string) (v : V) (d : dict V) :
  NoDup (map fst d) -> NoDup (map fst (dict_set k v d)).
Proof.
  induction d as [|[k0 v0] d IH]; simpl; intros Hd.
  - constructor; [intros []|constructor].
  - inversion Hd as [|? ? Hnotin Hrest]; subst.
    destruct (String.eqb k k0) eqn:E; simpl.
    + apply String.eqb_eq in E; subst k0. constructor; assumption.
    + constructor; [|auto].
      intros Hin. apply dict_set_keys in Hin as [Heq|Hin]; [|auto].
      subst k0. now rewrite String.eqb_refl in E.
Qed.

Lemma dict_update_nodup (d e : dict V) :
  NoDup (map fst d) -> NoDup (map fst (dict_update d e)).
Proof.
  unfold dict_update. revert d.
  induction e as [|[k1 v1] e IH]; intros d Hd; simpl; [assumption|].
  apply IH, dict_set_nodup, Hd.
Qed.

Lemma dict_fold_set_nodup (f : string -> V) (names : list string) (d : dict V) :
  NoDup (map fst d) ->
  NoDup (map fst (fold_left (fun ns name => dict_set name (f name) ns) names d)).
Proof.
  revert d. induction names as [|n names IH]; intros d Hd; simpl;
    [assumption|].
  apply IH, dict_set_nodup, Hd.
Qed.

Lemma dict_get_fold_set_in (f : string -> V) (k : string)
      (names : list string) (d : dict V) :
  existsb (String.eqb k) names = true ->
  dict_get k (fold_left (fun ns name => dict_set name (f name) ns) names d)
  = Some (f k).
Proof.
  revert d. induction names as [|n names IH]; intros d Hk; simpl in *;
    [discriminate|].
  destruct (existsb (String.eqb k) names) eqn:Erest.
  - apply IH. reflexivity.
  - rewrite orb_false_r in Hk. apply String.eqb_eq in Hk; subst n.
    rewrite dict_get_fold_set by assumption.
    now rewrite dict_get_set, String.eqb_refl.
Qed.

End DictMore.


(* ================================================================== *)
(** * The sandbox: what a snippet can and cannot do to the store *)

Section SandboxMore.
Context {host : Host}.

Lemma take_length (n : nat) (s : string) :
  (String.length (take n s) <= n)%nat.
Proof.
  revert s. induction n as [|n IH]; intros s; simpl; [lia|].
  destruct s as [|c s]; simpl; [lia|]. specialize (IH s). lia.
Qed.

(** The store after [execute], in terms of what [exec] did. *)
Lemma execute_store (code : string) (self : REPLEnvironment) (h : heap)
      out self' h' :
  execute code self h = (out, self', h') ->
  match py_exec code (make_namespace self) h with
  | (Return ns', _) =>
      variables self'
      = dict_update (variables self) (dict_filter exported ns')
  | (Raise _, _) => variables self' = variables self
  end.
Proof.
  intros Hrun. destruct (execute_paths_effect _ _ _ _ _ _ Hrun) as [_ Hstore].
  destruct (py_exec code (make_namespace self) h) as [[ns'|e] h1]; tauto.
Qed.


End SandboxMore.

(** X1: the fifteen interpreter names are bound to the interpreter's own
    objects in every namespace, whatever the variable store holds under
    those names. *)
Theorem namespace_builtins_fixed
        {host : Host} (self : REPLEnvironment) (k : string) :
  mem_string k builtin_names = true ->
  dict_get k (make_namespace self) = Some (py_builtin k).
Proof.
  intros Hk. unfold make_namespace.
  now apply dict_get_fold_set_in.
Qed.

Lemma namespace_builtins_fixed_witness :
  dict_get "len"
    (@make_namespace (Mini.host [])
       (@mk_repl (Mini.host []) (Mini.MStr "ctx")
          [("context", Mini.MStr "ctx"); ("len", Mini.MInt 5)] []))
  = Some (Mini.MBuiltin "len").
Proof.
  exact (@namespace_builtins_fixed (Mini.host []) _ "len" eq_refl).
Defined.

(** X2: [execute] never changes what the store holds under a name that is
    not exported: ["context"], the fifteen interpreter names and every name
    that starts with two underscores keep their binding, or stay unbound,
    whatever the snippet does and however it ends. *)
Theorem execute_keeps_unexported
        {host : Host} (code : string) (self self' : REPLEnvironment)
        (h h' : heap) (out : outcome exec_result) (k : string) :
  execute code self h = (out, self', h') ->
  exported k = false ->
  get_variable k self' = get_variable k self.
Proof.
  intros Hrun Hk. apply execute_store in Hrun. unfold get_variable.
  destruct (py_exec code (make_namespace self) h) as [[ns'|e] h1];
    rewrite Hrun; [|reflexivity].
  apply dict_get_update_other. now rewrite dict_get_filter, Hk.
Qed.

Lemma execute_keeps_unexported_witness :
  get_variable "context"
    (snd (fst (@execute (Mini.host [])
                 ("context = 5" ++ nl ++ "len = 3" ++ nl ++ "y = 2")
                 (REPLEnvironment_init (Mini.text [] "ctx")) tt)))
  = Some (Mini.MStr "ctx").
Proof.
  destruct (@execute (Mini.host [])
              ("context = 5" ++ nl ++ "len = 3" ++ nl ++ "y = 2")
              (REPLEnvironment_init (Mini.text [] "ctx")) tt)
    as [[out self'] h'] eqn:Hrun.
  exact (@execute_keeps_unexported (Mini.host []) _ _ _ _ _ _ "context"
           Hrun eq_refl).
Defined.




(** X4: a snippet cannot unbind a stored variable: a name in the store
    before [execute] is in the store after it, and a name that the snippet
    removed from its namespace (as [del] does) keeps the value it had in the
    store. *)
Theorem snippet_cannot_unbind
        {host : Host} (code : string) (self self' : REPLEnvironment)
        (h h' : heap) (out : outcome exec_result) (k : string) :
  execute code self h = (out, self', h') ->
  (get_variable k self <> None -> get_variable k self' <> None)
  /\ (forall ns' h1,
         py_exec code (make_namespace self) h = (Return ns', h1) ->
         dict_get k ns' = None ->
         get_variable k self' = get_variable k self).
Proof.
  intros Hrun. apply execute_store in Hrun. unfold get_variable. split.
  - intros Hbound.
    destruct (py_exec code (make_namespace self) h) as [[ns'|e] h1];
      rewrite Hrun; [|assumption].
    now apply dict_get_update_bound.
  - intros ns' h1 Hexec Hgone. rewrite Hexec in Hrun. rewrite Hrun.
    apply dict_get_update_other.
    rewrite dict_get_filter, Hgone. now destruct (exported k).
Qed.

Lemma snippet_cannot_unbind_witness :
  get_variable "x"
    (snd (fst (@execute Del.host "del x"
                 (@mk_repl Del.host (Mini.MStr "ctx")
                    [("context", Mini.MStr "ctx"); ("x", Mini.MInt 1)] [])
                 tt)))
  = Some (Mini.MInt 1).
Proof.
  destruct (@execute Del.host "del x"
              (@mk_repl Del.host (Mini.MStr "ctx")
                 [("context", Mini.MStr "ctx"); ("x", Mini.MInt 1)] [])
              tt) as [[out self'] h'] eqn:Hrun.
  eassert (Hexec : @py_exec Del.host "del x"
                     (make_namespace
                        (@mk_repl Del.host (Mini.MStr "ctx")
                           [("context", Mini.MStr "ctx"); ("x", Mini.MInt 1)] []))
                     tt = (Return _, _)) by reflexivity.
  exact (proj2 (@snippet_cannot_unbind Del.host _ _ _ _ _ _ "x" Hrun)
               _ _ Hexec eq_refl).
Defined.

Lemma preview_shape {host : Host} (vars : dict value) (h : heap) :
  forall shown,
    preview vars h = Return shown ->
    map fst shown = map fst vars
    /\ Forall (fun kv => (String.length (snd kv) <= 200)%nat) shown.
Proof.
  induction vars as [|[k v] vars IH]; intros shown Hp; cbn [preview] in Hp.
  - injection Hp as <-. split; [reflexivity|constructor].
  - destruct (py_str v h) as [text|e]; [|discriminate].
    destruct (preview vars h) as [rest|e]; [|discriminate].
    injection Hp as <-. destruct (IH _ eq_refl) as [Hkeys Hbound].
    split; [simpl; now rewrite Hkeys|].
    constructor; [exact (take_length 200 text)|assumption].
Qed.

(** X5: every preview of a returned record has at most 200 characters.
    When the record reports success and no error, it previews every stored
    variable, in the order of the store, and its output is the string form
    of the variable [result] exactly when the store has one.  When the
    record carries an error, it has no output. *)
Theorem preview_is_bounded
        {host : Host} (code : string) (self self' : REPLEnvironment)
        (h h' : heap) (r : exec_result) :
  execute code self h = (Return r, self', h') ->
  Forall (fun kv => (String.length (snd kv) <= 200)%nat) (result_variables r)
  /\ (success r = true -> error r = None ->
      map fst (result_variables r) = map fst (variables self')
      /\ match get_variable "result" self' with
         | Some v => exists text, py_str v h' = Return text /\ output r = Some text
         | None => output r = None
         end)
  /\ (error r <> None -> output r = None).
Proof.
  intros Hrun. unfold get_variable.
  execute_paths_in Hrun; try discriminate Hrun; injection Hrun as <- <- <-;
    cbn [result_variables output error success variables log_execution];
    repeat match goal with
      | H : preview _ _ = Return _ |- _ => apply preview_shape in H; destruct H
      end;
    (split; [try assumption; constructor|]);
    (split; [|try reflexivity; intros Habs; now elim Habs]);
    intros Hok Herr; try discriminate;
    (split; [assumption|]);
    repeat match goal with
      | H : dict_get "result" _ = _ |- _ => rewrite H
      end; eauto.
Qed.

Lemma preview_is_bounded_witness :
  exists r self',
    @execute (Mini.host []) "result = 41"
             (REPLEnvironment_init (Mini.text [] "ctx")) tt
    = (Return r, self', tt)
    /\ map fst (result_variables r) = ["context"; "result"]
    /\ Forall (fun kv => (String.length (snd kv) <= 200)%nat)
              (result_variables r)
    /\ output r = Some "41".
Proof.
  eassert (Hrun : @execute (Mini.host []) "result = 41"
                    (REPLEnvironment_init (Mini.text [] "ctx")) tt
                  = (Return _, _, _)) by reflexivity.
  destruct (@preview_is_bounded (Mini.host []) _ _ _ _ _ _ Hrun)
    as (Hbound & Hshown & _).
  destruct (Hshown eq_refl eq_refl) as (Hkeys & Hout).
  eexists _, _. split; [exact Hrun|].
  split; [exact Hkeys|]. split; [exact Hbound|].
  destruct Hout as (text & Htext & Hout). rewrite Hout.
  injection Htext as <-. reflexivity.
Defined.

(** The keys of the variable store stay pairwise distinct: they are in
    a new sandbox, [execute] keeps them so however the snippet ends, and the
    namespace handed to [exec] has pairwise distinct keys as well. *)
Theorem store_keys_stay_distinct
        {host : Host} (code : string) (self : REPLEnvironment) (h : heap) :
  (forall ctx, NoDup (map fst (variables (REPLEnvironment_init ctx))))
  /\ (NoDup (map fst (variables self)) ->
      NoDup (map fst (make_namespace self))
      /\ NoDup (map fst (variables (snd (fst (execute code self h)))))).
Proof.
  split.
  - intros ctx. simpl. constructor; [intros []|constructor].
  - intros Hvars. split.
    + unfold make_namespace. apply dict_fold_set_nodup, dict_update_nodup.
      simpl. constructor; [intros []|constructor].
    + destruct (execute code self h) as [[out self'] h'] eqn:Hrun.
      apply execute_store in Hrun. cbn [fst snd].
      destruct (py_exec code (make_namespace self) h) as [[ns'|e] h1];
        rewrite Hrun; [now apply dict_update_nodup | assumption].
Qed.

Lemma store_keys_stay_distinct_witness :
  NoDup (map fst (variables
                    (snd (fst (@execute (Mini.host [])
                                 ("x = 1" ++ nl ++ "x = 2" ++ nl ++ "y = 3")
                                 (REPLEnvironment_init (Mini.text [] "ctx"))
                                 tt))))).
Proof.
  apply (proj2 (@store_keys_stay_distinct (Mini.host []) _
                  (REPLEnvironment_init (Mini.text [] "ctx")) tt)).
  simpl. constructor; [intros []|constructor].
Defined.

(* ================================================================== *)
(** * The loop: invariants of the transcript and of the history *)

Section LoopInvariants.
Context {host : Host}.

(** What the snippets of one response add, however the [for] loop ends. *)
Lemma run_code_blocks_trace (response : string) (blocks : list string) :
  forall (r : REPLEnvironment) (msgs : list message) (h : heap) out r' msgs' h',
    run_code_blocks response blocks r msgs h = (out, r', msgs', h') ->
    exists recs,
      msgs' = (msgs ++ execution_messages response (map record_result recs))%list
      /\ execution_history r' = (execution_history r ++ recs)%list.
Proof.
  induction blocks as [|code blocks IH]; intros r msgs h out r' msgs' h' Hrun.
  - simpl in Hrun. injection Hrun as _ <- <- _.
    exists []. simpl. now rewrite !app_nil_r.
  - cbn [run_code_blocks] in Hrun.
    assert (Hif : (if contains "recursive_lm" code
                   then execute code r h else execute code r h)
                  = execute code r h) by (destruct (contains _ code); reflexivity).
    rewrite Hif in Hrun. clear Hif.
    destruct (execute code r h) as [[[res|e] r1] h1] eqn:E;
      pose proof (proj1 (execute_paths_effect _ _ _ _ _ _ E)) as Hexec;
      cbv beta iota in Hexec.
    + destruct (IH _ _ _ _ _ _ _ Hrun) as (recs & Hmsgs & Hhist).
      exists (mk_record code res :: recs). split.
      * rewrite Hmsgs, <- app_assoc. reflexivity.
      * rewrite Hhist, Hexec, <- app_assoc. reflexivity.
    + injection Hrun as _ <- <- _.
      exists []. simpl. rewrite !app_nil_r. rewrite app_nil_r in Hexec.
      split; [reflexivity|assumption].
Qed.

(** The three ways in which one pass through the loop can leave the
    transcript and the sandbox. *)
Lemma loop_body_trace (l : locals) (self : RecursiveLM) (w : world)
      out l' self' w' :
  loop_body l self w = (out, l', self', w') ->
  (messages l' = messages l /\ repl l' = repl l)
  \/ (exists response,
         messages l'
         = (messages l ++ [assistant_message response; nudge_message])%list
         /\ repl l' = repl l)
  \/ (exists response recs,
         messages l'
         = (messages l
            ++ execution_messages response (map record_result recs))%list
         /\ execution_history (repl l')
            = (execution_history (repl l) ++ recs)%list
         /\ context (repl l') = context (repl l)).
Proof.
  intros Hbody. unfold loop_body in Hbody.
  destruct (_call_llm (messages l) (root_model (config self)) 0 self w)
    as [[[response|e] self1] w1].
  - destruct (final_match response) as [g|].
    { injection Hbody as _ <- _ _. left. split; reflexivity. }
    destruct (final_var_match response) as [g|].
    { destruct (str_of_optional _ _);
        injection Hbody as _ <- _ _; left; split; reflexivity. }
    destruct (code_blocks response) as [|b blocks].
    { injection Hbody as _ <- _ _. right. left. exists response.
      split; reflexivity. }
    destruct (run_code_blocks response (b :: blocks) (repl l) (messages l)
                              (objects w1)) as [[[o r'] msgs'] h'] eqn:Hrun.
    injection Hbody as _ <- _ _. right. right.
    assert (Hctx : context r' = context (repl l)).
    { clear -Hrun. revert Hrun. generalize (b :: blocks) as bs.
      generalize (repl l) as r. generalize (messages l) as msgs.
      generalize (objects w1) as h. intros h msgs r bs.
      revert r msgs h.
      induction bs as [|code bs IH]; intros r msgs h Hrun.
      - simpl in Hrun. now injection Hrun as _ <- _ _.
      - cbn [run_code_blocks] in Hrun.
        assert (Hif : (if contains "recursive_lm" code
                       then execute code r h else execute code r h)
                      = execute code r h)
          by (destruct (contains _ code); reflexivity).
        rewrite Hif in Hrun. clear Hif.
        pose proof (execute_context code r h) as Hc.
        destruct (execute code r h) as [[[res|e] r1] h1]; cbn [fst snd] in Hc.
        + rewrite (IH _ _ _ Hrun). exact Hc.
        + injection Hrun as _ <- _ _. exact Hc. }
    apply run_code_blocks_trace in Hrun. destruct Hrun as (recs & Hm & Hh).
    exists response, recs. cbn [messages repl]. auto.
  - injection Hbody as _ <- _ _. left. split; reflexivity.
Qed.

(** A property of the local state that every pass keeps holds when the loop
    is left. *)
Lemma while_loop_invariant (P : locals -> Prop) :
  (forall l self w out l' self' w',
      P l -> loop_body l self w = (out, l', self', w') -> P l') ->
  forall fuel l self w out l' self' w',
    P l -> while_loop fuel l self w = Some (out, l', self', w') -> P l'.
Proof.
  intros Hstep. induction fuel as [|fuel IH];
    intros l self w out l' self' w' HP Hrun;
    rewrite while_loop_unfold in Hrun; destruct (loop_guard l self).
  - discriminate.
  - now injection Hrun as _ <- _ _.
  - destruct (loop_body l self w) as [[[o l1] self1] w1] eqn:B.
    pose proof (Hstep _ _ _ _ _ _ _ HP B) as HP1.
    destruct o as [[|]|e].
    + now injection Hrun as _ <- _ _.
    + eapply IH; eassumption.
    + now injection Hrun as _ <- _ _.
  - now injection Hrun as _ <- _ _.
Qed.

Lemma alternating_app (a b : list message) :
  alternating a = true -> alternating b = true -> alternating (a ++ b) = true.
Proof.
  assert (H : forall n (a : list message),
             (List.length a <= n)%nat ->
             alternating a = true -> alternating b = true ->
             alternating (a ++ b) = true).
  { induction n as [|n IH]; intros x Hlen Ha Hb.
    - destruct x; [assumption | simpl in Hlen; lia].
    - destruct x as [|m1 [|m2 x]]; [assumption | discriminate |].
      cbn [alternating] in Ha. cbn [app alternating].
      apply andb_true_iff in Ha as [Hroles Hrest].
      rewrite Hroles. cbn [andb].
      apply IH; [simpl in Hlen; lia | assumption | assumption]. }
  intros Ha Hb. now apply (H (List.length a)).
Qed.

Lemma alternating_execution_messages (response : string)
      (results : list exec_result) :
  alternating (execution_messages response results) = true.
Proof.
  induction results as [|r results IH]; [reflexivity|].
  change (execution_messages response (r :: results))
    with (assistant_message response :: execution_message r
          :: execution_messages response results).
  cbn [alternating]. exact IH.
Qed.

Lemma filter_execution_messages (response : string)
      (results : list exec_result) :
  filter is_execution_message (execution_messages response results)
  = map execution_message results.
Proof.
  induction results as [|r results IH]; [reflexivity|].
  change (execution_messages response (r :: results))
    with (assistant_message response :: execution_message r
          :: execution_messages response results).
  cbn [filter].
  assert (Ha : is_execution_message (assistant_message response) = false)
    by reflexivity.
  assert (He : is_execution_message (execution_message r) = true).
  { unfold is_execution_message, execution_message, startswith.
    cbn [role content]. now rewrite strip_prefix_app. }
  rewrite Ha, He, IH. reflexivity.
Qed.

(** The transcript keeps its first two messages, and what follows them is
    made of assistant/user pairs. *)
Lemma transcript_shape_kept (m0 m1 : message) :
  forall l self w out l' self' w',
    (exists rest, messages l = m0 :: m1 :: rest /\ alternating rest = true) ->
    loop_body l self w = (out, l', self', w') ->
    exists rest, messages l' = m0 :: m1 :: rest /\ alternating rest = true.
Proof.
  intros l self w out l' self' w' (rest & Hm & Halt) Hbody.
  apply loop_body_trace in Hbody.
  destruct Hbody as [[Hsame _]|[(response & Hgrow & _)|(response & recs & Hgrow & _)]].
  - exists rest. now rewrite Hsame.
  - exists (rest ++ [assistant_message response; nudge_message])%list.
    split; [rewrite Hgrow, Hm; reflexivity|].
    apply alternating_app; [assumption|reflexivity].
  - exists (rest ++ execution_messages response (map record_result recs))%list.
    split; [rewrite Hgrow, Hm; reflexivity|].
    apply alternating_app; [assumption|].
    apply alternating_execution_messages.
Qed.

(** The execution reports of the transcript are those of the history. *)
Lemma reports_match_history_kept :
  forall l self w out l' self' w',
    filter is_execution_message (messages l)
    = map report_of (execution_history (repl l)) ->
    loop_body l self w = (out, l', self', w') ->
    filter is_execution_message (messages l')
    = map report_of (execution_history (repl l')).
Proof.
  intros l self w out l' self' w' Hinv Hbody.
  apply loop_body_trace in Hbody.
  destruct Hbody as [[Hsame Hrepl]|[(response & Hgrow & Hrepl)
                                  |(response & recs & Hgrow & Hhist & _)]].
  - now rewrite Hsame, Hrepl.
  - rewrite Hgrow, Hrepl, filter_app, Hinv.
    cbn [filter]. 
    assert (Ha : is_execution_message (assistant_message response) = false)
      by reflexivity.
    assert (Hn : is_execution_message nudge_message = false) by reflexivity.
    rewrite Ha, Hn. now rewrite app_nil_r.
  - rewrite Hgrow, Hhist, filter_app, Hinv, filter_execution_messages,
      map_app, map_map. reflexivity.
Qed.

End LoopInvariants.

Section CompletionMore.
Context {host : Host}.

(** A returned result is the [return] statement applied to the state in
    which the loop was left. *)
Lemma completion_returns (query : string) (ctx : value)
      (self self' : RecursiveLM) (w w' : world) (r : completion_result) :
  completion query ctx self w = Some (Return r, self', w') ->
  exists l',
    while_loop (Z.to_nat (max_iterations (config self)))
               (initial_locals (config self) query ctx (objects w)) self w
    = Some (Return tt, l', self', w')
    /\ r = make_result l' self'.
Proof.
  intros Hrun.
  destruct (completion_run query ctx self w)
    as (out & l' & self1 & w1 & Hloop & Hcompletion).
  rewrite Hrun in Hcompletion.
  destruct out as [[]|e]; [|discriminate].
  injection Hcompletion as -> -> ->.
  exists l'. split; [assumption|reflexivity].
Qed.

(** A pass through the loop is counted. *)
Lemma while_loop_enters (fuel : nat) (l : locals) (self : RecursiveLM)
      (w : world) out l' self' w' :
  loop_guard l self = true ->
  while_loop fuel l self w = Some (out, l', self', w') ->
  iterations l + 1 <= iterations l'.
Proof.
  intros Hguard Hrun. rewrite while_loop_unfold, Hguard in Hrun.
  destruct fuel as [|fuel]; [discriminate|].
  destruct (loop_body l self w) as [[[o l1] self1] w1] eqn:B.
  apply loop_body_effect in B. destruct B as (Hit & _).
  destruct o as [[|]|e].
  - injection Hrun as _ <- _ _. lia.
  - apply while_loop_effect in Hrun. lia.
  - injection Hrun as _ <- _ _. lia.
Qed.

End CompletionMore.

(** X6: the transcript that [completion] returns starts with the system
    prompt and the query, and everything after them is a sequence of pairs,
    an assistant message followed by a user message. *)
Theorem transcript_is_well_formed
        {host : Host} (query : string) (ctx : value)
        (self self' : RecursiveLM) (w w' : world) (r : completion_result) :
  completion query ctx self w = Some (Return r, self', w') ->
  exists rest,
    result_messages r
    = {| role := "system";
         content := system_prompt (config self) (REPLEnvironment_init ctx)
                                  (objects w) |}
      :: {| role := "user"; content := "Query: " ++ query |}
      :: rest
    /\ alternating rest = true.
Proof.
  intros Hrun. apply completion_returns in Hrun as (l' & Hloop & ->).
  cbn [result_messages make_result].
  revert Hloop.
  apply (while_loop_invariant
           (fun l => exists rest,
                messages l
                = {| role := "system";
                     content := system_prompt (config self)
                                  (REPLEnvironment_init ctx) (objects w) |}
                  :: {| role := "user"; content := "Query: " ++ query |}
                  :: rest
                /\ alternating rest = true)
           (transcript_shape_kept _ _)).
  exists []. split; reflexivity.
Qed.

(** X7: in the transcript that [completion] returns, the user messages
    that report an execution are, in order, the reports of the records of
    the returned history: every executed snippet is reported to the model
    once, and nothing is reported that was not executed. *)
Theorem reports_match_history
        {host : Host} (query : string) (ctx : value)
        (self self' : RecursiveLM) (w w' : world) (r : completion_result) :
  completion query ctx self w = Some (Return r, self', w') ->
  filter is_execution_message (result_messages r)
  = map report_of (repl_history r).
Proof.
  intros Hrun. apply completion_returns in Hrun as (l' & Hloop & ->).
  cbn [result_messages repl_history make_result].
  revert Hloop.
  apply (while_loop_invariant
           (fun l => filter is_execution_message (messages l)
                     = map report_of (execution_history (repl l)))
           reports_match_history_kept).
  reflexivity.
Qed.

(** X8: in a returned result, [iterations] is the number of requests the
    invocation sent, [total_calls] is the counter before the invocation plus
    [iterations], [iterations] lies between 0 and [max_iterations], and it is
    at least 1 when [max_iterations] is. *)
Theorem iterations_count_requests
        {host : Host} (query : string) (ctx : value)
        (self self' : RecursiveLM) (w w' : world) (r : completion_result) :
  completion query ctx self w = Some (Return r, self', w') ->
  (exists new,
      wire w' = (wire w ++ new)%list
      /\ Z.of_nat (List.length new) = result_iterations r)
  /\ total_calls r = call_count self + result_iterations r
  /\ 0 <= result_iterations r <= Z.max 0 (max_iterations (config self))
  /\ (1 <= max_iterations (config self) -> 1 <= result_iterations r).
Proof.
  intros Hrun. apply completion_returns in Hrun as (l' & Hloop & ->).
  cbn [result_iterations total_calls make_result].
  pose proof (while_loop_effect _ _ _ _ _ _ _ _ Hloop)
    as (_ & Hlo & Hhi & new & Hwire & _ & Hlen & Hcount & _).
  simpl in Hlo, Hhi, Hlen.
  split; [exists new; split; [assumption|lia]|].
  split; [rewrite (Hcount eq_refl); lia|].
  split; [lia|].
  intros Hbudget.
  apply while_loop_enters in Hloop; [simpl in Hloop; lia|].
  unfold loop_guard. simpl.
  apply andb_true_iff. split; [apply Z.ltb_lt; lia|reflexivity].
Qed.

(** X9: with [max_iterations <= 0] the loop is never entered:
    [completion] sends no request and returns the no-answer sentinel, zero
    iterations, an empty history and the two initial messages; the instance
    and the world are as before. *)
Theorem no_budget_no_call
        {host : Host} (query : string) (ctx : value)
        (self : RecursiveLM) (w : world) :
  max_iterations (config self) <= 0 ->
  completion query ctx self w
  = Some (Return {| answer := no_answer_sentinel;
                    result_iterations := 0;
                    repl_history := [];
                    total_calls := call_count self;
                    result_messages :=
                      messages (initial_locals (config self) query ctx
                                               (objects w)) |},
          self, w).
Proof.
  intros Hbudget. unfold completion, completion_fuel.
  rewrite while_loop_unfold.
  assert (Hguard : loop_guard (initial_locals (config self) query ctx (objects w))
                              self = false).
  { unfold loop_guard. simpl.
    destruct (0 <? max_iterations (config self)) eqn:E; [|reflexivity].
    apply Z.ltb_lt in E. lia. }
  rewrite Hguard. reflexivity.
Qed.

Ltac run_returned Hrun :=
  match type of Hrun with
  | _ = Some (?out, _, _) =>
      let Ha := fresh "Ha" in
      pose proof (f_equal Mini.answer_of Hrun) as Ha;
      vm_compute in Ha;
      destruct out; [|discriminate Ha]; clear Ha
  end.

Lemma transcript_is_well_formed_witness :
  exists r self' w' rest,
    Mini.run [Content "Let me look."; Content (Mini.fenced "n = 3");
              Content "FINAL_VAR(n)"]
             Mini.cfg 0 "q" "ctx" (Mini.start _)
    = Some (Return r, self', w')
    /\ List.length (result_messages r) = (2 + List.length rest)%nat
    /\ alternating rest = true.
Proof.
  destruct (@completion_total
              (Mini.host [Content "Let me look."; Content (Mini.fenced "n = 3");
                          Content "FINAL_VAR(n)"])
              "q" (Mini.text _ "ctx") (mk_rlm Mini.cfg 0) (Mini.start _))
    as [[[out self'] w'] Hrun].
  run_returned Hrun.
  destruct (transcript_is_well_formed _ _ _ _ _ _ _ Hrun) as (rest & Hm & Halt).
  eexists _, self', w', rest. split; [exact Hrun|].
  split; [rewrite Hm; reflexivity | exact Halt].
Defined.

Lemma reports_match_history_witness :
  exists r self' w',
    Mini.run [Content "Let me look.";
              Content (Mini.fenced "n = 3" ++ Mini.fenced "m = oops(n)");
              Content "FINAL_VAR(n)"]
             Mini.cfg 0 "q" "ctx" (Mini.start _)
    = Some (Return r, self', w')
    /\ filter is_execution_message (result_messages r)
       = map (@report_of
                (Mini.host
                   [Content "Let me look.";
                    Content (Mini.fenced "n = 3" ++ Mini.fenced "m = oops(n)");
                    Content "FINAL_VAR(n)"]))
             (repl_history r).
Proof.
  destruct (@completion_total
              (Mini.host [Content "Let me look.";
                          Content (Mini.fenced "n = 3" ++ Mini.fenced "m = oops(n)");
                          Content "FINAL_VAR(n)"])
              "q" (Mini.text _ "ctx") (mk_rlm Mini.cfg 0) (Mini.start _))
    as [[[out self'] w'] Hrun].
  run_returned Hrun.
  eexists _, self', w'. split; [exact Hrun|].
  exact (reports_match_history _ _ _ _ _ _ _ Hrun).
Defined.

Lemma iterations_count_requests_witness :
  exists r self' w',
    Mini.run [Content "Let me look."; Content "FINAL(done)"]
             Mini.cfg 7 "q" "ctx" (Mini.start _)
    = Some (Return r, self', w')
    /\ total_calls r = 7 + result_iterations r
    /\ 1 <= result_iterations r <= 10.
Proof.
  destruct (@completion_total
              (Mini.host [Content "Let me look."; Content "FINAL(done)"])
              "q" (Mini.text _ "ctx") (mk_rlm Mini.cfg 7) (Mini.start _))
    as [[[out self'] w'] Hrun].
  run_returned Hrun.
  destruct (iterations_count_requests _ _ _ _ _ _ _ Hrun)
    as (_ & Htotal & Hrange & Hone).
  eexists _, self', w'. split; [exact Hrun|].
  split; [exact Htotal|].
  split; [apply Hone; simpl; lia | exact (proj2 Hrange)].
Defined.

Lemma no_budget_no_call_witness :
  Mini.total_calls_of
    (Mini.run [Content "FINAL(1)"]
              (mk_config "openai/gpt-4o" "openai/gpt-4o-mini" 0 1 false) 5
              "q" "ctx" (Mini.start _))
  = Some 5.
Proof.
  unfold Mini.run.
  rewrite (@no_budget_no_call (Mini.host [Content "FINAL(1)"]))
    by (simpl; lia).
  reflexivity.
Defined.

(* ================================================================== *)
(** * Single iterations *)

(** X10: a failure of the transport is not retried and not caught: when the
    request fails before a payload is decoded, the loop is left with that
    exception after one request and the call counter is not advanced; when
    the payload is decoded but holds no content, the exception leaves the
    loop all the same, and the call is counted. *)
Theorem transport_failure_propagates
        {host : Host} (fuel : nat) (l : locals) (self : RecursiveLM)
        (w : world) (e : exn) :
  loop_guard l self = true ->
  let call r := mk_call (root_model (config self)) 0 (messages l) r in
  (http_post (List.length (wire w)) (root_model (config self)) (messages l)
   = PostFailed e ->
   while_loop (S fuel) l self w
   = Some (Raise e, count_iteration l, self,
           {| objects := objects w; wire := wire w ++ [call (PostFailed e)] |}))
  /\ (http_post (List.length (wire w)) (root_model (config self)) (messages l)
      = NoContent e ->
      while_loop (S fuel) l self w
      = Some (Raise e, count_iteration l, count_call self,
              {| objects := objects w;
                 wire := wire w ++ [call (NoContent e)] |})).
Proof.
  intros Hguard call. split; intros Hpost;
    rewrite while_loop_unfold, Hguard; unfold loop_body, _call_llm;
    rewrite Hpost; reflexivity.
Qed.

Lemma transport_failure_propagates_witness :
  exists w',
    Mini.run [] Mini.cfg 3 "q" "ctx" (Mini.start _)
    = Some (Raise (Mini.ordinary "Connection refused"), mk_rlm Mini.cfg 3, w')
    /\ List.length (wire w') = 1%nat.
Proof.
  eexists. split; [|shelve].
  unfold Mini.run, completion, completion_fuel.
  change (Z.to_nat (max_iterations (config (mk_rlm Mini.cfg 3)))) with 10%nat.
  change (config (mk_rlm Mini.cfg 3)) with Mini.cfg.
  change (objects (Mini.start _)) with tt.
  rewrite (proj1 (@transport_failure_propagates (Mini.host []) 9
                    (initial_locals Mini.cfg "q" (Mini.text _ "ctx") tt)
                    (mk_rlm Mini.cfg 3) (Mini.start _)
                    (Mini.ordinary "Connection refused") eq_refl) eq_refl).
  reflexivity.
  Unshelve. reflexivity.
Defined.

(** X11: a [FINAL(...)] whose contents are empty or blank ends the loop
    in that iteration like any other, and the answer that [completion] then
    reports is the no-answer sentinel, although the budget is not
    exhausted. *)
Theorem blank_final_reports_sentinel
        {host : Host} (fuel : nat) (l : locals) (self : RecursiveLM)
        (w : world) (response g : string) :
  loop_guard l self = true ->
  http_post (List.length (wire w)) (root_model (config self)) (messages l)
  = Content response ->
  final_match response = Some g ->
  strip g = EmptyString ->
  exists l' w',
    while_loop (S fuel) l self w = Some (Return tt, l', count_call self, w')
    /\ iterations l' = iterations l + 1
    /\ final_answer l' = Some EmptyString
    /\ answer (make_result l' (count_call self)) = no_answer_sentinel.
Proof.
  intros Hguard Hpost Hfinal Hblank.
  eexists _, _. split.
  - rewrite while_loop_unfold, Hguard. unfold loop_body.
    rewrite (primary_call_returns _ _ _ _ Hpost), Hfinal. reflexivity.
  - cbn [iterations final_answer make_result answer].
    rewrite Hblank. repeat split.
Qed.

Lemma blank_final_reports_sentinel_witness :
  Mini.answer_of (Mini.run [Content "I give up. FINAL(  )"] Mini.cfg 0
                           "q" "ctx" (Mini.start _))
  = Some no_answer_sentinel.
Proof.
  destruct (@blank_final_reports_sentinel
              (Mini.host [Content "I give up. FINAL(  )"]) 9
              (initial_locals Mini.cfg "q" (Mini.text _ "ctx") tt)
              (mk_rlm Mini.cfg 0) (Mini.start _)
              "I give up. FINAL(  )" "  "
              eq_refl eq_refl eq_refl eq_refl)
    as (l' & w' & Hloop & _ & _ & Hanswer).
  unfold Mini.run, completion, completion_fuel.
  change (Z.to_nat (max_iterations (config (mk_rlm Mini.cfg 0)))) with 10%nat.
  change (config (mk_rlm Mini.cfg 0)) with Mini.cfg.
  change (objects (Mini.start _)) with tt.
  rewrite Hloop. cbn [Mini.answer_of]. now rewrite Hanswer.
Defined.



(** X13: [FINAL_VAR(name)] with [name] in the store executes nothing and
    ends the loop in that iteration: with the string form that the stored
    value has when the directive is read as the final answer, when [str] of
    the value returns; with the exception that [str] raises, which leaves
    the loop uncaught, when it does not. *)
Theorem final_var_reads_store
        {host : Host} (fuel : nat) (l : locals) (self : RecursiveLM)
        (w : world) (response g : string) (v : value) :
  loop_guard l self = true ->
  http_post (List.length (wire w)) (root_model (config self)) (messages l)
  = Content response ->
  final_match response = None ->
  final_var_match response = Some g ->
  get_variable (strip g) (repl l) = Some v ->
  (forall text,
      py_str v (objects w) = Return text ->
      exists l' w',
        while_loop (S fuel) l self w = Some (Return tt, l', count_call self, w')
        /\ final_answer l' = Some text
        /\ repl l' = repl l
        /\ answer (make_result l' (count_call self))
           = answer_or_sentinel (Some text))
  /\ (forall e,
         py_str v (objects w) = Raise e ->
         exists l' w',
           while_loop (S fuel) l self w
           = Some (Raise e, l', count_call self, w')
           /\ final_answer l' = final_answer l
           /\ repl l' = repl l).
Proof.
  intros Hguard Hpost Hfinal Hvar Hbound. split.
  - intros text Hstr. eexists _, _. split.
    + rewrite while_loop_unfold, Hguard. unfold loop_body.
      rewrite (primary_call_returns _ _ _ _ Hpost), Hfinal, Hvar, Hbound.
      cbn [str_of_optional objects]. rewrite Hstr. reflexivity.
    + repeat split.
  - intros e Hstr. eexists _, _. split.
    + rewrite while_loop_unfold, Hguard. unfold loop_body.
      rewrite (primary_call_returns _ _ _ _ Hpost), Hfinal, Hvar, Hbound.
      cbn [str_of_optional objects]. rewrite Hstr. reflexivity.
    + repeat split.
Qed.

Lemma final_var_reads_store_witness :
  exists l' w',
    @while_loop (Mini.host [Content "FINAL_VAR( result )"]) 1
      (mk_locals
         (@mk_repl (Mini.host [Content "FINAL_VAR( result )"]) (Mini.MStr "ctx")
            [("context", Mini.MStr "ctx"); ("result", Mini.MInt 4)] [])
         [] 0 None)
      (mk_rlm Mini.cfg 0) (Mini.start _)
    = Some (Return tt, l', mk_rlm Mini.cfg 1, w')
    /\ final_answer l' = Some "4".
Proof.
  destruct (proj1 (@final_var_reads_store
                     (Mini.host [Content "FINAL_VAR( result )"]) 0
                     (mk_locals
                        (@mk_repl (Mini.host [Content "FINAL_VAR( result )"])
                           (Mini.MStr "ctx")
                           [("context", Mini.MStr "ctx"); ("result", Mini.MInt 4)] [])
                        [] 0 None)
                     (mk_rlm Mini.cfg 0) (Mini.start _)
                     "FINAL_VAR( result )" " result " (Mini.MInt 4)
                     eq_refl eq_refl eq_refl eq_refl eq_refl)
                  "4" eq_refl)
    as (l' & w' & Hloop & Hfinal & _).
  exists l', w'. split; [exact Hloop|exact Hfinal].
Defined.

(* ================================================================== *)
(** * The directive grammar: what the groups can hold *)

Lemma contains_char_cons (c x : ascii) (s : string) :
  contains (String c EmptyString) (String x s)
  = Ascii.eqb c x || contains (String c EmptyString) s.
Proof.
  cbn [contains]. unfold startswith. cbn [strip_prefix].
  destruct (Ascii.eqb c x); reflexivity.
Qed.

Lemma lazy_group_lacks_suffix_char (dot : ascii -> bool) (c : ascii) :
  forall s g rest,
    lazy_group dot (String c EmptyString) s = Some (g, rest) ->
    contains (String c EmptyString) g = false.
Proof.
  induction s as [|x s IH]; intros g rest Hg; cbn [lazy_group strip_prefix] in Hg.
  - discriminate.
  - destruct (Ascii.eqb c x) eqn:E.
    + injection Hg as <- _. reflexivity.
    + destruct (dot x); [|discriminate].
      destruct (lazy_group dot (String c EmptyString) s) as [[g' rest']|] eqn:G;
        [|discriminate].
      injection Hg as <- _.
      rewrite contains_char_cons, E. exact (IH _ _ eq_refl).
Qed.

Lemma lazy_group_line_lacks_newline (suf : string) :
  forall s g rest,
    lazy_group dot_line suf s = Some (g, rest) -> contains nl g = false.
Proof.
  induction s as [|x s IH]; intros g rest Hg; cbn [lazy_group] in Hg.
  - destruct (strip_prefix suf EmptyString); [|discriminate].
    injection Hg as <- _. reflexivity.
  - destruct (strip_prefix suf (String x s)).
    + injection Hg as <- _. reflexivity.
    + destruct (dot_line x) eqn:D; [|discriminate].
      destruct (lazy_group dot_line suf s) as [[g' rest']|] eqn:G;
        [|discriminate].
      injection Hg as <- _. unfold nl. rewrite contains_char_cons.
      unfold dot_line in D. apply negb_true_iff in D.
      rewrite Ascii.eqb_sym, D. exact (IH _ _ eq_refl).
Qed.

(** What [re.search] returns is the group of a match at some position. *)
Lemma search_is_a_group (pre : string) (dot : ascii -> bool) (suf : string) :
  forall s g,
    search pre dot suf s = Some g ->
    exists s1 rest, lazy_group dot suf s1 = Some (g, rest).
Proof.
  induction s as [|x s IH]; intros g Hs; rewrite search_unfold in Hs;
    unfold match_here in Hs.
  - destruct (strip_prefix pre EmptyString) as [s1|]; [|discriminate].
    destruct (lazy_group dot suf s1) as [[g' rest]|] eqn:G; [|discriminate].
    injection Hs as <-. eauto.
  - destruct (strip_prefix pre (String x s)) as [s1|].
    + destruct (lazy_group dot suf s1) as [[g' rest]|] eqn:G.
      * injection Hs as <-. eauto.
      * apply IH. exact Hs.
    + apply IH. exact Hs.
Qed.

Lemma lstrip_lacks_char (c : ascii) (s : string) :
  contains (String c EmptyString) s = false ->
  contains (String c EmptyString) (lstrip s) = false.
Proof.
  induction s as [|x s IH]; intros H; [assumption|].
  cbn [lstrip]. destruct (is_space x); [|assumption].
  rewrite contains_char_cons in H. apply orb_false_iff in H as [_ H]. auto.
Qed.

Lemma rstrip_lacks_char (c : ascii) (s : string) :
  contains (String c EmptyString) s = false ->
  contains (String c EmptyString) (rstrip s) = false.
Proof.
  induction s as [|x s IH]; intros H; [assumption|].
  rewrite contains_char_cons in H. apply orb_false_iff in H as [Hx Hs].
  specialize (IH Hs). cbn [rstrip].
  destruct (rstrip s) as [|y r].
  - destruct (is_space x); [reflexivity|].
    rewrite contains_char_cons, Hx. reflexivity.
  - rewrite contains_char_cons, Hx. exact IH.
Qed.

Lemma strip_lacks_char (c : ascii) (s : string) :
  contains (String c EmptyString) s = false ->
  contains (String c EmptyString) (strip s) = false.
Proof.
  intros H. unfold strip. now apply rstrip_lacks_char, lstrip_lacks_char.
Qed.

(** X14: whatever the response, a parsed final answer holds no close
    parenthesis, and a parsed variable name holds neither a close
    parenthesis nor a newline. *)
Theorem parsed_text_lacks_delimiters (response : string) :
  match parse response with
  | FinalAnswer text => contains ")" text = false
  | FinalVarRef name => contains ")" name = false /\ contains nl name = false
  | _ => True
  end.
Proof.
  unfold parse.
  destruct (final_match response) as [g|] eqn:Hf.
  - apply search_is_a_group in Hf as (s1 & rest & Hg).
    apply strip_lacks_char. exact (lazy_group_lacks_suffix_char _ _ _ _ _ Hg).
  - destruct (final_var_match response) as [g|] eqn:Hv.
    + apply search_is_a_group in Hv as (s1 & rest & Hg). split.
      * apply strip_lacks_char.
        exact (lazy_group_lacks_suffix_char _ _ _ _ _ Hg).
      * apply strip_lacks_char.
        exact (lazy_group_line_lacks_newline _ _ _ _ Hg).
    + destruct (code_blocks response); exact I.
Qed.

(** The lazy group stops at the first place where the closing literal
    starts. *)
Lemma lazy_group_first_suffix (suf tail : string) (last : ascii)
      (body post : string) :
  suf = tail ++ String last EmptyString ->
  contains suf (body ++ tail) = false ->
  lazy_group dot_all suf (body ++ suf ++ post) = Some (body, post).
Proof.
  intros Hsuf. induction body as [|c body IH]; intros Hno.
  - change (EmptyString ++ suf ++ post) with (suf ++ post).
    destruct (suf ++ post) eqn:E; cbn [lazy_group];
      rewrite <- E, strip_prefix_app; reflexivity.
  - change (String c body ++ tail) with (String c (body ++ tail)) in Hno.
    apply contains_cons_false in Hno as [Hhead Htail].
    change (String c body ++ suf ++ post)
      with (String c (body ++ suf ++ post)).
    cbn [lazy_group].
    assert (Hs : strip_prefix suf (String c (body ++ suf ++ post)) = None).
    { replace (String c (body ++ suf ++ post))
        with (String c (body ++ tail) ++ String last post).
      - apply strip_prefix_within; [|assumption].
        rewrite Hsuf. simpl. rewrite !string_length_app. simpl. lia.
      - simpl. f_equal. rewrite string_app_assoc. f_equal.
        rewrite Hsuf, string_app_assoc. reflexivity. }
    rewrite Hs. cbn [dot_all]. now rewrite (IH Htail).
Qed.

Lemma findall_skips (pre : string) (dot : ascii -> bool) (suf x s : string) :
  findall_from pre dot suf (String.length x) (x ++ s)
  = findall_from pre dot suf 0 s.
Proof.
  induction x as [|c x IH]; [reflexivity|]. exact IH.
Qed.

Lemma findall_passes (pre tail : string) (last : ascii)
      (dot : ascii -> bool) (suf a rest : string) :
  pre = tail ++ String last EmptyString ->
  contains pre (a ++ tail) = false ->
  findall_from pre dot suf 0 (a ++ pre ++ rest)
  = findall_from pre dot suf 0 (pre ++ rest).
Proof.
  intros Hpre. induction a as [|c a IH]; intros Hno; [reflexivity|].
  change (String c a ++ tail) with (String c (a ++ tail)) in Hno.
  apply contains_cons_false in Hno as [Hhead Htail].
  change (String c a ++ pre ++ rest) with (String c (a ++ pre ++ rest)).
  cbn [findall_from]. unfold match_here.
  assert (Hs : strip_prefix pre (String c (a ++ pre ++ rest)) = None).
  { replace (String c (a ++ pre ++ rest))
      with (String c (a ++ tail) ++ String last rest).
    - apply strip_prefix_within; [|assumption].
      rewrite Hpre. simpl. rewrite !string_length_app. simpl. lia.
    - simpl. f_equal. rewrite string_app_assoc. f_equal.
      rewrite Hpre, string_app_assoc. reflexivity. }
  rewrite Hs. exact (IH Htail).
Qed.

(** X15: a fenced snippet is extracted whole and first: when no opening
    fence starts before it and no closing fence starts inside it, the
    snippets of the response are that snippet followed by the snippets of
    what comes after its closing fence. *)
Theorem fenced_snippet_is_extracted (before code post : string) :
  contains fence_open (before ++ "```python") = false ->
  contains fence_close (code ++ nl ++ "``") = false ->
  code_blocks (before ++ fence_open ++ code ++ fence_close ++ post)
  = code :: code_blocks post.
Proof.
  intros Hbefore Hinside. unfold code_blocks, findall.
  rewrite (findall_passes fence_open "```python" newline dot_all fence_close
             before (code ++ fence_close ++ post) eq_refl Hbefore).
  assert (Hgroup : lazy_group dot_all fence_close (code ++ fence_close ++ post)
                   = Some (code, post)).
  { apply (lazy_group_first_suffix fence_close (nl ++ "``") "`"%char);
      [reflexivity | assumption]. }
  change (fence_open ++ code ++ fence_close ++ post)
    with (String "`" ("``python" ++ nl ++ code ++ fence_close ++ post)).
  cbn [findall_from]. unfold match_here.
  change (String "`" ("``python" ++ nl ++ code ++ fence_close ++ post))
    with (fence_open ++ code ++ fence_close ++ post).
  rewrite strip_prefix_app, Hgroup. f_equal.
  replace ("``python" ++ nl ++ code ++ fence_close ++ post)
    with (("``python" ++ nl ++ code ++ fence_close) ++ post)
    by (now rewrite !string_app_assoc).
  replace (String.length (fence_open ++ code ++ fence_close ++ post)
           - String.length post - 1)%nat
    with (String.length ("``python" ++ nl ++ code ++ fence_close)).
  - apply findall_skips.
  - change (fence_open ++ code ++ fence_close ++ post)
      with (String "`" ("``python" ++ nl ++ code ++ fence_close ++ post)).
    cbn [String.length]. rewrite !string_length_app.
    change (String.length "``python") with 8%nat.
    change (String.length nl) with 1%nat.
    change (String.length fence_close) with 4%nat. lia.
Qed.

Lemma fenced_snippet_is_extracted_witness :
  code_blocks ("First: " ++ fence_open ++ "x = 1" ++ fence_close
               ++ " and then " ++ Mini.fenced "print(x)")
  = "x = 1" :: code_blocks (" and then " ++ Mini.fenced "print(x)").
Proof.
  exact (fenced_snippet_is_extracted "First: " "x = 1"
           (" and then " ++ Mini.fenced "print(x)") eq_refl eq_refl).
Defined.

(* ================================================================== *)
(** * [peek], the factory, and queries in sequence *)

(** X16: for a text context [peek(n)] is the first [n] characters of the
    text, and for every context that is not a list [peek(n)] has at most
    [n] characters. *)
Theorem peek_is_bounded
        {host : Host} (n : nat) (self : REPLEnvironment) (h : heap) :
  (forall s, py_as_str (context self) = Some s -> peek n self h = take n s)
  /\ (py_as_str (context self) <> None \/ py_as_list (context self) h = None ->
      (String.length (peek n self h) <= n)%nat).
Proof.
  unfold peek. split.
  - intros s Hs. now rewrite Hs.
  - intros Hshape. destruct (py_as_str (context self)) as [s|].
    + apply take_length.
    + destruct Hshape as [Hstr|Hlist]; [congruence|].
      rewrite Hlist. apply take_length.
Qed.

Lemma peek_is_bounded_witness :
  @peek (Mini.host []) 5 (REPLEnvironment_init (Mini.text [] "Review A: 5/5")) tt
  = "Revie"
  /\ (String.length
        (@peek (Mini.host []) 5
               (REPLEnvironment_init (Mini.text [] "Review A: 5/5")) tt) <= 5)%nat.
Proof.
  pose proof (@peek_is_bounded (Mini.host []) 5
                (REPLEnvironment_init (Mini.text [] "Review A: 5/5")) tt)
    as [Htext Hbound].
  split.
  - exact (Htext "Review A: 5/5" eq_refl).
  - apply Hbound. left. discriminate.
Defined.

(** X17: [create_rlm] builds an instance exactly when the key passed, or
    failing that the key of the environment, is a non-empty text, and raises
    an exception otherwise; the instance starts at zero calls and always has
    the default budget, so each of its [completion] calls sends at most ten
    requests and a dispatch at depth one or more is refused. *)
Theorem factory_fixes_the_budget
        {host : Host} (root recursive : string) (api_key env_key : option string)
        (verbose : bool) :
  ((exists self, create_rlm root recursive api_key verbose env_key = Return self)
   <-> exists c k, or_text api_key env_key = Some (String c k))
  /\ ((forall self, create_rlm root recursive api_key verbose env_key <> Return self)
      -> exists e, create_rlm root recursive api_key verbose env_key = Raise e
                   /\ is_Exception e = true)
  /\ forall self,
      create_rlm root recursive api_key verbose env_key = Return self ->
      call_count self = 0
      /\ config self = mk_config root recursive 10 1 verbose
      /\ (forall query ctx w,
             exists out self' w' new,
               completion query ctx self w = Some (out, self', w')
               /\ wire w' = (wire w ++ new)%list
               /\ (List.length new <= 10)%nat)
      /\ (forall r d query subset w,
             1 <= d ->
             recursive_lm r d query subset self w
             = (Return depth_sentinel, self, w)).
Proof.
  unfold create_rlm, RecursiveLM_init.
  destruct (or_text api_key env_key) as [[|c k]|].
  - split; [|split].
    + split; [intros [self H]; discriminate | intros (c & k & H); discriminate].
    + intros _. eexists. split; reflexivity.
    + intros self H. discriminate.
  - split; [|split].
    + split; [intros _; eauto | intros _; eauto].
    + intros Hnone. exfalso. exact (Hnone _ eq_refl).
    + intros self Hself. injection Hself as <-.
      split; [reflexivity|]. split; [reflexivity|]. split.
      * intros query ctx w.
        destruct (completion_run query ctx
                    (mk_rlm (mk_config root recursive 10 1 verbose) 0) w)
          as (out & l' & self' & w' & Hloop & Hcompletion).
        apply while_loop_effect in Hloop.
        destruct Hloop as (_ & Hlo & Hhi & new & Hwire & _ & Hlen & _).
        simpl in Hlo, Hhi, Hlen.
        eexists _, self', w', new. split; [exact Hcompletion|].
        split; [assumption | lia].
      * intros r d query subset w Hd. unfold recursive_lm.
        cbn [config max_recursive_depth].
        destruct (d >=? 1) eqn:E; [reflexivity|].
        exfalso. destruct (Z.geb_spec d 1); [discriminate | lia].
  - split; [|split].
    + split; [intros [self H]; discriminate | intros (c & k & H); discriminate].
    + intros _. eexists. split; reflexivity.
    + intros self H. discriminate.
Qed.

Lemma factory_fixes_the_budget_witness :
  exists self,
    @create_rlm "openai/gpt-4o-mini" "openai/gpt-4o-mini" (Some "")
                true (Some "sk-from-env")
    = Return self
    /\ call_count self = 0
    /\ max_iterations (config self) = 10.
Proof.
  destruct (proj2 (proj1 (@factory_fixes_the_budget (Mini.host [])
                            "openai/gpt-4o-mini" "openai/gpt-4o-mini"
                            (Some "") (Some "sk-from-env") true)))
    as [self Hself].
  - eexists _, _. reflexivity.
  - exists self. split; [exact Hself|].
    destruct (proj2 (proj2 (@factory_fixes_the_budget (Mini.host [])
                              "openai/gpt-4o-mini" "openai/gpt-4o-mini"
                              (Some "") (Some "sk-from-env") true))
                    self Hself)
      as (Hcount & Hcfg & _).
    split; [exact Hcount | now rewrite Hcfg].
Defined.

Section SessionFacts.
Context {host : Host}.

Lemma completion_accounts (query : string) (ctx : value)
      (self self' : RecursiveLM) (w w' : world) (r : completion_result) :
  completion query ctx self w = Some (Return r, self', w') ->
  total_calls r = call_count self + result_iterations r
  /\ call_count self' = total_calls r.
Proof.
  intros Hrun. apply completion_returns in Hrun as (l' & Hloop & ->).
  cbn [result_iterations total_calls make_result].
  apply while_loop_effect in Hloop.
  destruct Hloop as (_ & _ & _ & new & _ & _ & Hlen & Hcount & _).
  simpl in Hlen. rewrite (Hcount eq_refl). split; [lia|reflexivity].
Qed.

End SessionFacts.

(** X18: when several queries are put to one instance in turn, the
    [total_calls] of each result is the running total: the counter before
    the first query plus the iterations of every query answered so far; and
    when all are answered the instance's counter is the last of them. *)
Theorem session_totals_accumulate
        {host : Host} (queries : list (string * value)) :
  forall (self self' : RecursiveLM) (w w' : world)
         (rs : list completion_result) (e : option exn),
    session queries self w = (rs, e, self', w') ->
    map total_calls rs
    = running_sums (call_count self) (map result_iterations rs)
    /\ (e = None ->
        List.length rs = List.length queries
        /\ call_count self'
           = fold_left Z.add (map result_iterations rs) (call_count self)).
Proof.
  induction queries as [|[query ctx] queries IH];
    intros self self' w w' rs e Hs; cbn [session] in Hs.
  - injection Hs as <- <- <- _. split; [reflexivity|]. split; reflexivity.
  - destruct (completion_total query ctx self w) as [[[out self1] w1] Hrun].
    rewrite Hrun in Hs. destruct out as [r|ex].
    + destruct (session queries self1 w1) as [[[rs1 e1] self2] w2] eqn:Hrest.
      injection Hs as <- <- <- _.
      destruct (completion_accounts _ _ _ _ _ _ _ Hrun) as [Htotal Hcount].
      destruct (IH _ _ _ _ _ _ Hrest) as [Hsums Hall].
      cbn [map running_sums fold_left List.length].
      rewrite Hcount, Htotal in Hsums. rewrite Hcount, Htotal in Hall.
      split; [rewrite Hsums, Htotal; reflexivity|].
      intros He. destruct (Hall He) as [Hlen Hlast].
      split; [now rewrite Hlen | exact Hlast].
    + injection Hs as <- <- _ _. split; [reflexivity|]. discriminate.
Qed.

Lemma session_totals_accumulate_witness :
  let '(rs, e, self', _) :=
    @session (Mini.host [Content "Hm."; Content "FINAL(1)"; Content "FINAL(2)"])
             [("first", Mini.text _ "ctx"); ("second", Mini.text _ "ctx")]
             (mk_rlm Mini.cfg 0) (Mini.start _) in
  map total_calls rs = running_sums 0 (map result_iterations rs)
  /\ map total_calls rs = [2; 3].
Proof.
  destruct (@session
              (Mini.host [Content "Hm."; Content "FINAL(1)"; Content "FINAL(2)"])
              [("first", Mini.text _ "ctx"); ("second", Mini.text _ "ctx")]
              (mk_rlm Mini.cfg 0) (Mini.start _))
    as [[[rs e] self'] w'] eqn:Hs.
  split.
  - exact (proj1 (session_totals_accumulate _ _ _ _ _ _ _ Hs)).
  - apply (f_equal (fun x => map total_calls (fst (fst (fst x))))) in Hs.
    vm_compute in Hs. symmetry. exact Hs.
Defined.

(* ================================================================== *)
(** * Exhaustion *)

Section ExhaustionFacts.
Context {host : Host}.

(** The loop is left by [break] only with a final answer set. *)
Lemma break_sets_final_answer (l : locals) (self : RecursiveLM) (w : world)
      l' self' w' :
  loop_body l self w = (Return Break, l', self', w') ->
  final_answer l' <> None.
Proof.
  unfold loop_body.
  destruct (_call_llm (messages l) (root_model (config self)) 0 self w)
    as [[[response|e] self1] w1]; [|discriminate].
  destruct (final_match response) as [g|].
  { intros H. injection H as <- _ _. discriminate. }
  destruct (final_var_match response) as [g|].
  { destruct (str_of_optional _ _); [|discriminate].
    intros H. injection H as <- _ _. discriminate. }
  destruct (code_blocks response) as [|b blocks]; [discriminate|].
  destruct (run_code_blocks response (b :: blocks) (repl l) (messages l)
                            (objects w1)) as [[[o r'] msgs'] h'].
  destruct o; discriminate.
Qed.

(** A loop that returns without a final answer has used the whole
    budget. *)
Lemma while_loop_exhausts (fuel : nat) :
  forall l self w l' self' w',
    while_loop fuel l self w = Some (Return tt, l', self', w') ->
    final_answer l' = None ->
    max_iterations (config self) <= iterations l'.
Proof.
  induction fuel as [|fuel IH]; intros l self w l' self' w' Hrun Hnone;
    rewrite while_loop_unfold in Hrun;
    destruct (loop_guard l self) eqn:G.
  - discriminate.
  - injection Hrun as <- _ _. unfold loop_guard in G. rewrite Hnone in G.
    rewrite andb_true_r in G. apply Z.ltb_ge in G. exact G.
  - destruct (loop_body l self w) as [[[o l1] self1] w1] eqn:B.
    destruct o as [[|]|e].
    + injection Hrun as <- _ _.
      exfalso. exact (break_sets_final_answer _ _ _ _ _ _ B Hnone).
    + apply loop_body_effect in B. destruct B as (_ & Hcfg & _).
      rewrite <- Hcfg. eapply IH; eassumption.
    + discriminate.
  - injection Hrun as <- _ _. unfold loop_guard in G. rewrite Hnone in G.
    rewrite andb_true_r in G. apply Z.ltb_ge in G. exact G.
Qed.

End ExhaustionFacts.

(** X19: when [completion] returns and no reply of the invocation carried
    a terminal directive, the whole budget was used: [iterations] is
    [max_iterations] (zero when that is negative), as many requests were
    sent, and the answer is the no-answer sentinel. *)
Theorem exhaustion_uses_whole_budget
        {host : Host} (query : string) (ctx : value)
        (self self' : RecursiveLM) (w w' : world) (r : completion_result)
        (new : list llm_call) :
  completion query ctx self w = Some (Return r, self', w') ->
  wire w' = (wire w ++ new)%list ->
  Forall (fun c => terminal_reply (call_reply c) = false) new ->
  result_iterations r = Z.max 0 (max_iterations (config self))
  /\ Z.of_nat (List.length new) = Z.max 0 (max_iterations (config self))
  /\ answer r = no_answer_sentinel.
Proof.
  intros Hrun Hwire Hnt.
  apply completion_returns in Hrun as (l' & Hloop & ->).
  cbn [result_iterations answer make_result].
  pose proof (while_loop_effect _ _ _ _ _ _ _ _ Hloop)
    as (_ & Hlo & Hhi & new' & Hwire' & _ & Hlen & _ & Hfin).
  simpl in Hlo, Hhi, Hlen.
  assert (new' = new).
  { rewrite Hwire in Hwire'. now apply app_inv_head in Hwire'. }
  subst new'.
  specialize (Hfin eq_refl Hnt).
  pose proof (while_loop_exhausts _ _ _ _ _ _ _ Hloop Hfin) as Hfull.
  rewrite Hfin. split; [lia|]. split; [lia|reflexivity].
Qed.

Lemma exhaustion_uses_whole_budget_witness :
  exists r self' w',
    Mini.run [Content "Hm."; Content "Still thinking."; Content "FINAL(late)"]
             (mk_config "openai/gpt-4o" "openai/gpt-4o-mini" 2 1 false) 0
             "q" "ctx" (Mini.start _)
    = Some (Return r, self', w')
    /\ result_iterations r = 2
    /\ answer r = no_answer_sentinel.
Proof.
  destruct (@completion_total
              (Mini.host [Content "Hm."; Content "Still thinking.";
                          Content "FINAL(late)"])
              "q" (Mini.text _ "ctx")
              (mk_rlm (mk_config "openai/gpt-4o" "openai/gpt-4o-mini" 2 1 false) 0)
              (Mini.start _))
    as [[[out self'] w'] Hrun].
  run_returned Hrun.
  assert (Hreplies : map (fun c => terminal_reply (call_reply c)) (wire w')
                     = [false; false]).
  { apply (f_equal (fun x => match x with
                             | Some (_, _, w) =>
                                 map (fun c => terminal_reply (call_reply c))
                                     (wire w)
                             | None => []
                             end)) in Hrun.
    vm_compute in Hrun. symmetry. exact Hrun. }
  destruct (@exhaustion_uses_whole_budget _ _ _ _ _ _ _ _ (wire w') Hrun eq_refl)
    as (Hit & _ & Hanswer).
  - clear -Hreplies. induction (wire w') as [|c cs IH]; [constructor|].
    injection Hreplies as Hc Hcs. constructor; [exact Hc|].
    destruct cs as [|c' cs]; [constructor|].
    injection Hcs as Hc' Hcs'. constructor; [exact Hc'|].
    destruct cs; [constructor|discriminate].
  - eexists _, self', w'. split; [exact Hrun|].
    split; [exact Hit|exact Hanswer].
Defined.

(* ================================================================== *)
(** * The transcripts that are sent *)

Section RequestFacts.
Context {host : Host}.

(** The requests of a run of the loop carry the transcripts of states that
    satisfy whatever every pass keeps. *)
Lemma while_loop_requests (P : locals -> Prop) :
  (forall l self w out l' self' w',
      P l -> loop_body l self w = (out, l', self', w') -> P l') ->
  forall fuel l self w out l' self' w',
    P l -> while_loop fuel l self w = Some (out, l', self', w') ->
    exists new,
      wire w' = (wire w ++ new)%list
      /\ Forall (fun c => exists l0, P l0 /\ call_messages c = messages l0) new.
Proof.
  intros Hstep. induction fuel as [|fuel IH];
    intros l self w out l' self' w' HP Hrun;
    rewrite while_loop_unfold in Hrun; destruct (loop_guard l self).
  - discriminate.
  - injection Hrun as _ _ _ <-. exists []. now rewrite app_nil_r.
  - destruct (loop_body l self w) as [[[o l1] self1] w1] eqn:B.
    pose proof (Hstep _ _ _ _ _ _ _ HP B) as HP1.
    apply loop_body_effect in B. destruct B as (_ & _ & Hwire & _).
    assert (Hone : Forall (fun c => exists l0, P l0 /\ call_messages c = messages l0)
                          [mk_call (root_model (config self)) 0 (messages l)
                             (http_post (List.length (wire w))
                                (root_model (config self)) (messages l))]).
    { constructor; [|constructor]. exists l. split; [assumption|reflexivity]. }
    destruct o as [[|]|e].
    + injection Hrun as _ _ _ <-. eauto.
    + destruct (IH _ _ _ _ _ _ _ HP1 Hrun) as (new & Hw & Hall).
      eexists (_ :: new). split.
      * rewrite Hw, Hwire, <- app_assoc. reflexivity.
      * constructor; [|assumption]. inversion Hone; assumption.
    + injection Hrun as _ _ _ <-. eauto.
  - injection Hrun as _ _ _ <-. exists []. now rewrite app_nil_r.
Qed.

End RequestFacts.

(** X20: every request that a [completion] invocation sends, whether the
    invocation then returns or raises, carries a transcript that starts with
    the system prompt and the query and continues with assistant/user
    pairs; in particular no request carries an empty transcript. *)
Theorem requests_carry_well_formed_transcripts
        {host : Host} (query : string) (ctx : value)
        (self self' : RecursiveLM) (w w' : world)
        (out : outcome completion_result) :
  completion query ctx self w = Some (out, self', w') ->
  exists new,
    wire w' = (wire w ++ new)%list
    /\ Forall (fun c =>
                 exists rest,
                   call_messages c
                   = {| role := "system";
                        content := system_prompt (config self)
                                     (REPLEnvironment_init ctx) (objects w) |}
                     :: {| role := "user"; content := "Query: " ++ query |}
                     :: rest
                   /\ alternating rest = true) new.
Proof.
  intros Hrun.
  destruct (completion_run query ctx self w)
    as (o & l' & self1 & w1 & Hloop & Hcompletion).
  rewrite Hrun in Hcompletion. injection Hcompletion as _ -> ->.
  destruct (while_loop_requests
              (fun l => exists rest,
                   messages l
                   = {| role := "system";
                        content := system_prompt (config self)
                                     (REPLEnvironment_init ctx) (objects w) |}
                     :: {| role := "user"; content := "Query: " ++ query |}
                     :: rest
                   /\ alternating rest = true)
              (transcript_shape_kept _ _)
              (Z.to_nat (max_iterations (config self)))
              (initial_locals (config self) query ctx (objects w))
              self w o l' self1 w1)
    as (new & Hwire & Hall);
    [exists []; split; reflexivity | exact Hloop |].
  exists new. split; [assumption|].
  eapply Forall_impl; [|exact Hall].
  intros c (l0 & (rest & Hm & Halt) & Hc). exists rest.
  split; [now rewrite Hc|assumption].
Qed.

Lemma requests_carry_well_formed_transcripts_witness :
  exists out self' w' new,
    Mini.run [Content (Mini.fenced "x = 1"); Content "Hm."]
             Mini.cfg 0 "q" "ctx" (Mini.start _)
    = Some (out, self', w')
    /\ wire w' = new
    /\ Forall (fun c => (2 <= List.length (call_messages c))%nat) new.
Proof.
  destruct (@completion_total
              (Mini.host [Content (Mini.fenced "x = 1"); Content "Hm."])
              "q" (Mini.text _ "ctx") (mk_rlm Mini.cfg 0) (Mini.start _))
    as [[[out self'] w'] Hrun].
  destruct (requests_carry_well_formed_transcripts _ _ _ _ _ _ _ Hrun)
    as (new & Hwire & Hall).
  exists out, self', w', new. split; [exact Hrun|].
  split; [exact Hwire|].
  eapply Forall_impl; [|exact Hall].
  intros c (rest & Hm & _). rewrite Hm. simpl. lia.
Defined.

(* ================================================================== *)
(** * Conversions that raise *)

(** A snippet that stores an [int] too long to print: the store is updated
    and the success flag set before the previews are taken, so the record
    reports success together with the error text of the failed conversion,
    with no preview at all. *)
Lemma unprintable_value_is_stored_and_reported :
  match @execute (Big.host []) "x = 10**5000"
                 (@REPLEnvironment_init (Big.host []) (Big.text [] "ctx")) tt with
  | (Return r, self', _) =>
      success r = true
      /\ error r = Some Big.digits_limit_text
      /\ output r = None
      /\ result_variables r = []
      /\ map fst (variables self') = ["context"; "x"]
      /\ execution_history self' = [mk_record "x = 10**5000" r]
  | _ => False
  end.
Proof.
  vm_compute. repeat split.
Qed.

(** A snippet that raises an exception whose text cannot be taken:
    [str(e)] raises in the handler, the exception of the conversion leaves
    [execute], and no record is appended. *)
Lemma unprintable_exception_leaves_execute :
  match @execute (Big.host []) "raise ValueError(10**5000)"
                 (@REPLEnvironment_init (Big.host []) (Big.text [] "ctx")) tt with
  | (Raise e, self', _) =>
      e = Big.digits_limit /\ is_Exception e = true
      /\ execution_history self' = []
      /\ map fst (variables self') = ["context"]
  | _ => False
  end.
Proof.
  vm_compute. repeat split.
Qed.

(** [FINAL_VAR] of a variable that cannot be printed: the conversion at
    the end of the iteration raises out of [completion], after two
    requests. *)
Lemma unprintable_final_var_leaves_completion :
  match Big.run [Content (Mini.fenced "x = 10**5000"); Content "FINAL_VAR(x)"]
                "q" "ctx" with
  | Some (Raise e, self', w') =>
      e = Big.digits_limit /\ call_count self' = 2
      /\ List.length (wire w') = 2%nat
  | _ => False
  end.
Proof.
  vm_compute. repeat split.
Qed.
